(** * The AMS clubs scraper ([scrape_amsclubs.py]): model and properties

    Python text is modelled as a list of Unicode code points, so that the
    en-dash of the title pattern, the whitespace class of [str.strip] and of
    the regular expression class [\s], and the ordering of [str] values are
    the ones of the interpreter.  The HTML tree is the external capability
    of the program: a parsed page is the list of its elements in document
    order, each with its tag, attributes and text nodes. *)

From Stdlib Require Import List NArith Arith Bool Lia String Ascii Sorted Permutation.
From Stdlib Require DecimalString DecimalNat.
Import ListNotations.
Open Scope list_scope.

(** ** Text *)

Definition char := N.
Definition str := list char.

(** The code points of an ASCII literal of the source. *)
Definition lit (s : string) : str :=
  List.map N_of_ascii (list_ascii_of_string s).

Definition char_eqb (a b : char) : bool := N.eqb a b.

Fixpoint str_eqb (a b : str) : bool :=
  match a, b with
  | [], [] => true
  | x :: a', y :: b' => char_eqb x y && str_eqb a' b'
  | _, _ => false
  end.

(** [t.startswith(k)] *)
Fixpoint startswith (t k : str) : bool :=
  match k, t with
  | [], _ => true
  | _ :: _, [] => false
  | x :: k', y :: t' => char_eqb x y && startswith t' k'
  end.

(** [k in t] for two strings: [k] occurs in [t] as a contiguous run. *)
Fixpoint str_in (k t : str) : bool :=
  startswith t k ||
  match t with
  | [] => false
  | _ :: t' => str_in k t'
  end.

(** [any(k in t for k in ks)] *)
Definition any_in (t : str) (ks : list str) : bool :=
  existsb (fun k => str_in k t) ks.

(** [str.lower] restricted to ASCII letters; used to evaluate the
    categorizer on ASCII text.  The categorizer itself takes the case
    mapping of the interpreter as a parameter. *)
Definition ascii_lower_char (c : char) : char :=
  if (N.leb 65 c && N.leb c 90)%bool then (c + 32)%N else c.

Definition ascii_lower (s : str) : str := List.map ascii_lower_char s.

(** ** Whitespace, [strip], [join], [split]

    [str.isspace] of a code point; [str.strip()] and the class [\s] of a
    [str] pattern use the same set. *)
Definition isspace (c : char) : bool :=
  ((N.leb 9 c && N.leb c 13) || (N.leb 28 c && N.leb c 32)
   || N.eqb c 133 || N.eqb c 160 || N.eqb c 5760
   || (N.leb 8192 c && N.leb c 8202)
   || N.eqb c 8232 || N.eqb c 8233 || N.eqb c 8239 || N.eqb c 8287
   || N.eqb c 12288)%bool.

Fixpoint lstrip (s : str) : str :=
  match s with
  | [] => []
  | c :: s' => if isspace c then lstrip s' else s
  end.

Definition rstrip (s : str) : str := List.rev (lstrip (List.rev s)).

(** [s.strip()] *)
Definition strip (s : str) : str := rstrip (lstrip s).

(** Truth value of a string or a list: it is not empty. *)
Definition nonempty {A : Type} (s : list A) : bool :=
  match s with [] => false | _ :: _ => true end.

(** [sep.join(parts)] *)
Fixpoint join (sep : str) (parts : list str) : str :=
  match parts with
  | [] => []
  | [p] => p
  | p :: rest => p ++ sep ++ join sep rest
  end.

Definition hash : char := 35%N.
Definition newline : char := 10%N.
Definition en_dash : char := 8211%N.

(** [s.split("#", 1)[0]]: the text before the first ["#"]. *)
Fixpoint before_hash (s : str) : str :=
  match s with
  | [] => []
  | c :: s' => if char_eqb c hash then [] else c :: before_hash s'
  end.

(** ** Order on text and the stable sort

    [a < b] on [str] compares code points lexicographically. *)
Fixpoint str_ltb (a b : str) : bool :=
  match a, b with
  | _, [] => false
  | [], _ :: _ => true
  | x :: a', y :: b' =>
      if N.ltb x y then true
      else if N.eqb x y then str_ltb a' b' else false
  end.

Definition str_leb (a b : str) : bool := negb (str_ltb b a).

(** [sorted] and [list.sort] are stable and use only [<]; on a total
    preorder the result of a stable sort is unique, it is the one of this
    insertion sort, which puts an element before the first one not smaller
    than it. *)
Fixpoint insert_by {A : Type} (lt : A -> A -> bool) (x : A) (l : list A)
  : list A :=
  match l with
  | [] => [x]
  | y :: l' => if lt y x then y :: insert_by lt x l' else x :: y :: l'
  end.

Definition sort_by {A : Type} (lt : A -> A -> bool) (l : list A) : list A :=
  fold_right (insert_by lt) [] l.

(** A [set] of strings, kept as a list without repetitions. *)
Definition mem (x : str) (s : list str) : bool :=
  existsb (str_eqb x) s.

Definition set_add (x : str) (s : list str) : list str :=
  if mem x s then s else s ++ [x].

(** ** Parsed pages

    An element of the tree: its tag name, its attributes and the text
    nodes below it, in document order.  A parsed page lists its elements in
    document order. *)
Record element : Type := Element {
  tag : str;
  attrs : list (str * str);
  strings : list str
}.

Definition soup := list element.

(** [el.get(key)] *)
Fixpoint attr (key : str) (l : list (str * str)) : option str :=
  match l with
  | [] => None
  | (k, v) :: l' => if str_eqb k key then Some v else attr key l'
  end.

(** [el.get_text(sep, strip=True)]: every text node stripped, the empty
    ones dropped, the rest joined by [sep]. *)
Definition get_text (sep : str) (el : element) : str :=
  join sep (filter nonempty (List.map strip (strings el))).

(** [soup.find_all(names)] *)
Definition find_all (names : list str) (page : soup) : list element :=
  filter (fun el => mem (tag el) names) page.

(** [soup.find(name)] *)
Definition soup_find (name : str) (page : soup) : option element :=
  List.find (fun el => str_eqb (tag el) name) page.

(** ** Listing link extractor *)

Definition BASE : str := lit "https://amsclubs.ca".
Definition LIST : str := BASE ++ lit "/all-clubs/".

(** [soup.find_all("a", href=True)] *)
Definition anchors (page : soup) : list element :=
  filter (fun el => str_eqb (tag el) (lit "a") &&
                    match attr (lit "href") (attrs el) with
                    | Some _ => true
                    | None => false
                    end) page.

(** The body of the loop of [find_club_links] for one anchor. *)
Definition collect_link (hrefs : list str) (a : element) : list str :=
  let txt := get_text (lit " ") a in
  if str_in (lit "Discover") txt then
    match attr (lit "href") (attrs a) with
    | Some href =>
        let href := if startswith href (lit "/") then BASE ++ href else href in
        if startswith href BASE then set_add (before_hash href) hrefs
        else hrefs
    | None => hrefs
    end
  else hrefs.

Definition find_club_links (page : soup) : list str :=
  sort_by str_ltb (fold_left collect_link (anchors page) []).

(** ** Detail extractors *)

(** [.*$] of the title pattern, tried on the text after the en-dash: it
    takes every character up to the first line break, and [$] holds at the
    end of the text or before a line break that ends the text.  The result
    is what is left of the text after the match. *)
Fixpoint dot_star_end (s : str) : option str :=
  match s with
  | [] => Some []
  | c :: s' =>
      if char_eqb c newline then
        match s' with [] => Some s | _ :: _ => None end
      else dot_star_end s'
  end.

(** The pattern [\s*–.*$] tried at the start of [s]. *)
Definition match_dash_suffix (s : str) : option str :=
  match lstrip s with
  | c :: s' => if char_eqb c en_dash then dot_star_end s' else None
  | [] => None
  end.

(** [re.sub(r"\s*–.*$", "", s)]: the leftmost match is removed; what is
    left after it is empty or one line break, where the pattern has no
    other match. *)
Fixpoint strip_dash_suffix (s : str) : str :=
  match match_dash_suffix s with
  | Some rest => rest
  | None =>
      match s with
      | [] => []
      | c :: s' => c :: strip_dash_suffix s'
      end
  end.

(** The loop over ["h1"], ["h2"], ["h3"] of [extract_name_from_detail]:
    [Some] is its [return]. *)
Fixpoint first_heading (page : soup) (tags : list str) : option str :=
  match tags with
  | [] => None
  | t :: rest =>
      match soup_find t page with
      | Some h =>
          if nonempty (get_text [] h) then Some (get_text [] h)
          else first_heading page rest
      | None => first_heading page rest
      end
  end.

Definition extract_name_from_detail (page : soup) : str :=
  match first_heading page [lit "h1"; lit "h2"; lit "h3"] with
  | Some name => name
  | None =>
      match soup_find (lit "title") page with
      | Some title => strip_dash_suffix (get_text [] title)
      | None => []
      end
  end.

(** [soup.find("meta", attrs={"name": "description"})] *)
Definition find_meta_description (page : soup) : option element :=
  List.find (fun el => str_eqb (tag el) (lit "meta") &&
                       match attr (lit "name") (attrs el) with
                       | Some v => str_eqb v (lit "description")
                       | None => false
                       end) page.

(** The first text of [els] longer than [n] characters. *)
Fixpoint first_text_longer (n : nat) (els : list element) : option str :=
  match els with
  | [] => None
  | p :: rest =>
      let txt := get_text (lit " ") p in
      if nonempty txt && Nat.ltb n (List.length txt) then Some txt
      else first_text_longer n rest
  end.

Definition meta_content (page : soup) : option str :=
  match find_meta_description page with
  | Some meta =>
      match attr (lit "content") (attrs meta) with
      | Some c => if nonempty c then Some (strip c) else None
      | None => None
      end
  | None => None
  end.

Definition extract_description_from_detail (page : soup) : str :=
  match meta_content page with
  | Some d => d
  | None =>
      match first_text_longer 30 (find_all [lit "p"] page) with
      | Some txt => txt
      | None =>
          match first_text_longer 10
                  (find_all [lit "p"; lit "div"; lit "li"] page) with
          | Some txt => txt
          | None => []
          end
      end
  end.

(** ** The network

    [requests.get] on a listing URL raises a connection error or answers
    with a status code and a page; [get_soup] on a detail URL raises (fetch,
    status or parse) or gives the parsed page. *)
Inductive response : Type :=
| ConnectionError
| Response (status_code : nat) (page : soup).

Record World : Type := {
  http_get : str -> response;
  get_soup : str -> option soup
}.

(** The dict returned by [parse_detail]. *)
Record Detail : Type := {
  d_name : str;
  d_description : str;
  d_category : str
}.

(** A record of the output list. *)
Record Club : Type := {
  c_name : str;
  c_category : str;
  c_description : str;
  c_url : str
}.

Record Payload : Type := {
  generated_from : str;
  generated_at : str;
  clubs : list Club
}.

Definition empty_detail : Detail :=
  {| d_name := []; d_description := []; d_category := lit "Other" |}.

(** [str(p)] for a page number. *)
Definition decimal (p : nat) : str :=
  lit (DecimalString.NilEmpty.string_of_uint (Nat.to_uint p)).

Definition page_url (p : nat) : str :=
  if Nat.eqb p 1 then LIST
  else BASE ++ lit "/all-clubs/pagenum/" ++ decimal p ++ lit "/".

(** One turn of the loop of [iterate_pages]. *)
Inductive gen_step : Type :=
| Yield (links : list str)
| Break
| Raise.

Definition page_step (W : World) (max_pages p : nat) : gen_step :=
  if Nat.ltb max_pages p then Break
  else
    match http_get W (page_url p) with
    | ConnectionError => Raise
    | Response code page =>
        if Nat.eqb code 404 then Break
        else if Nat.leb 400 code && Nat.ltb code 600 then Raise
        else
          match find_club_links page with
          | [] => Break
          | links => Yield links
          end
    end.

(** How a run of the generator ends. *)
Inductive ending : Type :=
| Stopped
| Raised.

(** [iterate_pages] run to its end from page [p]: the pages it yields and
    how it ends.  [None] when [fuel] turns of the loop were not enough. *)
Fixpoint iterate_from (fuel : nat) (W : World) (max_pages p : nat)
  : option (list (nat * list str) * ending) :=
  match fuel with
  | 0 => None
  | S fuel' =>
      match page_step W max_pages p with
      | Break => Some ([], Stopped)
      | Raise => Some ([], Raised)
      | Yield links =>
          match iterate_from fuel' W max_pages (S p) with
          | Some (pages, e) => Some ((p, links) :: pages, e)
          | None => None
          end
      end
  end.

Definition iterate_pages (W : World) (max_pages : nat)
  : option (list (nat * list str) * ending) :=
  iterate_from (S max_pages) W max_pages 1.

(** The default of the parameter [max_pages]. *)
Definition default_max_pages : nat := 50.

(** ** Categorizer *)

(** ** Categorizer *)

Definition CATEGORIES : list str :=
  [lit "Athletic"; lit "Service"; lit "Cultural"; lit "Recreational";
   lit "Business"; lit "Technology"; lit "Sciences"; lit "Other"].

Definition business_kw : list str :=
  [lit "finance"; lit "business"; lit "consult"; lit "entrepreneur";
   lit "commerce"; lit "sauder"; lit "marketing"].

Definition technology_kw : list str :=
  [lit "code"; lit "program"; lit "developer"; lit "software";
   lit "product management"; lit "pm club"; lit "data"; lit "ai"; lit "ml";
   lit "robot"; lit "hackathon"; lit "tech"].

Definition sciences_kw : list str :=
  [lit "biology"; lit "physics"; lit "chemistry"; lit "science";
   lit "research"; lit "neuroscience"; lit "math"; lit "kinesiology";
   lit "geology"; lit "astronomy"; lit "statistics"; lit "biochem"].

Definition athletic_kw : list str :=
  [lit "sport"; lit "athletic"; lit "soccer"; lit "basketball"; lit "hockey";
   lit "climb"; lit "martial"; lit "yoga"; lit "dance"; lit "run";
   lit "rowing"; lit "tennis"; lit "badminton"; lit "swim"; lit "ultimate";
   lit "volleyball"; lit "taekwondo"; lit "muay thai"].

Definition service_kw : list str :=
  [lit "volunteer"; lit "service"; lit "outreach"; lit "charity";
   lit "non-profit"; lit "fundrais"; lit "community"; lit "brigade";
   lit "ems"; lit "first aid"].

Definition cultural_kw : list str :=
  [lit "culture"; lit "cultural"; lit "chinese"; lit "korean";
   lit "japanese"; lit "indian"; lit "persian"; lit "filipino";
   lit "vietnamese"; lit "latino"; lit "hispanic"; lit "african"; lit "arab";
   lit "jewish"; lit "islamic"; lit "sikh"].

Definition recreational_kw : list str :=
  [lit "game"; lit "gaming"; lit "board game"; lit "anime"; lit "film";
   lit "photography"; lit "recreation"; lit "outdoor"; lit "hiking";
   lit "improv"; lit "music"; lit "radio"; lit "theatre"; lit "clubhouse";
   lit "tabletop"].

Section Program.

(** [str.lower] of the interpreter (the full Unicode case mapping). *)
Variable lower : str -> str.

(** [t = f"{name} {desc} {url}".lower()] *)
Definition category_text (name desc url : str) : str :=
  lower (name ++ lit " " ++ desc ++ lit " " ++ url).

Definition guess_category (name desc url : str) : str :=
  let t := category_text name desc url in
  if any_in t business_kw then lit "Business"
  else if any_in t technology_kw then lit "Technology"
  else if any_in t sciences_kw then lit "Sciences"
  else if any_in t athletic_kw then lit "Athletic"
  else if any_in t service_kw then lit "Service"
  else if any_in t cultural_kw then lit "Cultural"
  else if any_in t recreational_kw then lit "Recreational"
  else lit "Other".

(** ** Detail page and orchestrator *)

Definition parse_detail (W : World) (url : str) : Detail :=
  match get_soup W url with
  | None => empty_detail
  | Some page =>
      let name := extract_name_from_detail page in
      let desc := extract_description_from_detail page in
      let cat := guess_category name desc url in
      {| d_name := name; d_description := desc; d_category := cat |}
  end.

(** The body of the loop over [new_links] once [detail] is there: the
    record is appended unless the stripped name is empty. *)
Definition add_detail (url : str) (detail : Detail) (clubs : list Club)
  : list Club :=
  let name := strip (d_name detail) in
  if nonempty name then
    clubs ++ [ {| c_name := name;
                  c_category := d_category detail;
                  c_description := strip (d_description detail);
                  c_url := url |} ]
  else clubs.

(** State of [main]: the set [seen] and the list [clubs]. *)
Definition state : Type := (list str * list Club)%type.

Definition visit (W : World) (st : state) (url : str) : state :=
  (set_add url (fst st), add_detail url (parse_detail W url) (snd st)).

Definition visit_all (W : World) (urls : list str) (st : state) : state :=
  fold_left (visit W) urls st.

Inductive crawl_result : Type :=
| Finished (st : state)
| Aborted.

(** The loop of [main] over the pages of [iterate_pages()]; the generator
    is resumed only when [main] asks for the next page, so its turns are
    interleaved with the visits. *)
Fixpoint crawl (fuel : nat) (W : World) (p : nat) (st : state)
  : option crawl_result :=
  match fuel with
  | 0 => None
  | S fuel' =>
      match page_step W default_max_pages p with
      | Break => Some (Finished st)
      | Raise => Some Aborted
      | Yield links =>
          let new_links := filter (fun u => negb (mem u (fst st))) links in
          if negb (nonempty new_links) && Nat.ltb 1 p then Some (Finished st)
          else crawl fuel' W (S p) (visit_all W new_links st)
      end
  end.

(** Rank of a category: its index in [CATEGORIES], or the length of
    [CATEGORIES] when it is not there. *)
Fixpoint index_of (x : str) (l : list str) : option nat :=
  match l with
  | [] => None
  | y :: l' =>
      if str_eqb y x then Some 0
      else match index_of x l' with
           | Some i => Some (S i)
           | None => None
           end
  end.

Definition rank (cat : str) : nat :=
  match index_of cat CATEGORIES with
  | Some i => i
  | None => List.length CATEGORIES
  end.

(** [key(a) < key(b)] for the key [(rank, name)] of the sort. *)
Definition key_ltb (a b : Club) : bool :=
  Nat.ltb (rank (c_category a)) (rank (c_category b))
  || (Nat.eqb (rank (c_category a)) (rank (c_category b))
      && str_ltb (c_name a) (c_name b)).

(** [main]: [None] when the fuel given to the loop was not enough,
    [Some None] when an exception of a listing page ends the run before
    the file is written, [Some (Some payload)] when the file is written.
    [now] is the time stamp of the interpreter. *)
Definition main (W : World) (now : str) : option (option Payload) :=
  match crawl (S default_max_pages) W 1 ([], []) with
  | None => None
  | Some Aborted => Some None
  | Some (Finished st) =>
      Some (Some {| generated_from := LIST;
                    generated_at := now ++ lit "Z";
                    clubs := sort_by key_ltb (snd st) |})
  end.

End Program.

(** ** Specification-side definitions *)


(** The cascade as the specification words it: an ordered list of
    (label, keyword list) pairs, the first pair with a keyword occurring in
    the text gives the label, and "Other" when there is none. *)
Definition cascade : list (str * list str) :=
  [(lit "Business", business_kw); (lit "Technology", technology_kw);
   (lit "Sciences", sciences_kw); (lit "Athletic", athletic_kw);
   (lit "Service", service_kw); (lit "Cultural", cultural_kw);
   (lit "Recreational", recreational_kw)].

Definition first_match (t : str) (rules : list (str * list str)) : str :=
  match List.find (fun r => any_in t (snd r)) rules with
  | Some r => fst r
  | None => lit "Other"
  end.

(** [k] occurs in [t]: [t] is some text, then [k], then some text. *)
Definition occurs (k t : str) : Prop :=
  exists pre post, t = pre ++ k ++ post.

(** Lexicographic order of two texts by code point. *)
Inductive lex_le : str -> str -> Prop :=
| lex_nil (b : str) : lex_le [] b
| lex_lt (x y : char) (a b : str) : (x < y)%N -> lex_le (x :: a) (y :: b)
| lex_eq (x : char) (a b : str) : lex_le a b -> lex_le (x :: a) (x :: b).

(** The order of the output: the category rank does not decrease, and
    among records of one category the name does not decrease. *)
Definition club_le (a b : Club) : Prop :=
  rank (c_category a) <= rank (c_category b)
  /\ (c_category a = c_category b -> lex_le (c_name a) (c_name b)).

(** No fragment mark in a URL. *)
Definition no_fragment (u : str) : Prop := ~ In hash u.

(** An absolute URL starts with a scheme and ["://"]. *)
Definition absolute (u : str) : bool :=
  startswith u (lit "https://") || startswith u (lit "http://").

(** The characters that end the authority part of a URL. *)
Definition ends_authority (c : char) : bool :=
  (N.eqb c 47 || N.eqb c 63 || N.eqb c 35)%bool.

Fixpoint take_authority (s : str) : str :=
  match s with
  | [] => []
  | c :: s' => if ends_authority c then [] else c :: take_authority s'
  end.

(** The authority (host) of an [https] URL. *)
Definition authority (u : str) : option str :=
  if startswith u (lit "https://") then Some (take_authority (skipn 8 u))
  else None.

(** The URL is on the site: its host is [amsclubs.ca]. *)
Definition on_site (u : str) : Prop :=
  authority u = Some (lit "amsclubs.ca").

(** An anchor adds nothing to the set of links. *)
Definition discarded (a : element) : Prop :=
  forall hrefs, collect_link hrefs a = hrefs.

(** Text and fields after [strip]: no white space at either end. *)
Definition stripped (s : str) : Prop := strip s = s.

(** The name strategies the specification lists, in order; the first one
    that succeeds gives the name, the empty text when none does. *)
Definition heading_text (t : str) (page : soup) : option str :=
  match soup_find t page with
  | Some h => if nonempty (get_text [] h) then Some (get_text [] h) else None
  | None => None
  end.

Definition title_text (page : soup) : option str :=
  match soup_find (lit "title") page with
  | Some title => Some (strip_dash_suffix (get_text [] title))
  | None => None
  end.

Definition name_strategies : list (soup -> option str) :=
  [heading_text (lit "h1"); heading_text (lit "h2"); heading_text (lit "h3");
   title_text].

Fixpoint first_success (fs : list (soup -> option str)) (page : soup) : str :=
  match fs with
  | [] => []
  | f :: rest =>
      match f page with
      | Some s => s
      | None => first_success rest page
      end
  end.

(** The text that follows the first en-dash of [t]; empty when [t] has
    no en-dash. *)
Fixpoint after_first_dash (t : str) : str :=
  match t with
  | [] => []
  | c :: t' => if char_eqb c en_dash then t' else after_first_dash t'
  end.

(** [r] is the text [t] with its trailing en-dash suffix removed: [t]
    has no en-dash and [r] is [t]; or [r] has no en-dash and does not end
    with white space, and [t] is [r] followed by white space, an en-dash
    and the rest of the suffix, so that the first en-dash, all the white
    space in front of it and all that follows it are gone. *)
Definition dash_suffix_removed (t r : str) : Prop :=
  (~ In en_dash t /\ r = t)
  \/ (~ In en_dash r /\ isspace (last r 0%N) = false
      /\ exists ws b, forallb isspace ws = true
                      /\ t = r ++ ws ++ en_dash :: b).

(** A page whose only element is a title with one text node. *)
Definition title_page (t : str) : soup :=
  [ {| tag := lit "title"; attrs := []; strings := [t] |} ].

(** An anchor with one text node. *)
Definition anchor (href txt : str) : element :=
  {| tag := lit "a"; attrs := [(lit "href", href)]; strings := [txt] |}.

(** The link an anchor gives, if any: the text has the marker, and the href
    starts with ["/"] (the site base is put in front) or with the site
    base itself; the fragment is cut off. *)
Definition kept_link (a : element) : option str :=
  if str_in (lit "Discover") (get_text (lit " ") a) then
    match attr (lit "href") (attrs a) with
    | Some h =>
        if startswith h (lit "/") then Some (before_hash (BASE ++ h))
        else if startswith h BASE then Some (before_hash h)
        else None
    | None => None
    end
  else None.

(** A small site: one listing page with two cards, the second page is not
    found; the detail page of the first card answers, the one of the
    second fails. *)
Definition chess_url : str := lit "https://amsclubs.ca/clubs/chess".

Definition chess_page : soup :=
  [ {| tag := lit "h1"; attrs := []; strings := [lit " Chess Club "] |};
    {| tag := lit "meta";
       attrs := [(lit "name", lit "description");
                 (lit "content", lit "We play chess.")];
       strings := [] |} ].

Definition small_site : World :=
  {| http_get := fun url =>
       if str_eqb url LIST then
         Response 200 [anchor (lit "/clubs/chess") (lit "Chess Club Discover");
                       anchor (lit "/clubs/ski#top") (lit "Ski Discover")]
       else Response 404 [];
     get_soup := fun url =>
       if str_eqb url chess_url then Some chess_page else None |}.

(** The three invariants of the loop: the categories are labels of
    [CATEGORIES]; the fields are stripped and the names not empty; the
    records are those of the seen URLs whose extracted name is not empty. *)
Definition labelled (st : state) : Prop :=
  Forall (fun c => In (c_category c) CATEGORIES) (snd st).

Definition clean (st : state) : Prop :=
  Forall (fun c => stripped (c_name c) /\ stripped (c_description c)
                   /\ c_name c <> []) (snd st).

Definition named (lower : str -> str) (W : World) (st : state) : Prop :=
  forall u, In u (List.map c_url (snd st)) <->
            In u (fst st) /\ d_name (parse_detail lower W u) <> [].

(** [small_site] with every detail page failing. *)
Definition small_site_no_details : World :=
  {| http_get := http_get small_site; get_soup := fun _ => None |}.

(** [small_site] with a third listing page that cannot be reached. *)
Definition small_site_broken_later : World :=
  {| http_get := fun url =>
       if str_eqb url (page_url 3) then ConnectionError
       else http_get small_site url;
     get_soup := get_soup small_site |}.

(** The records have distinct URLs, all of them seen. *)
Definition unique_urls (st : state) : Prop :=
  NoDup (List.map c_url (snd st))
  /\ forall u, In u (List.map c_url (snd st)) -> In u (fst st).

(** A record carries what the extractors and the categorizer give for the
    page of its URL. *)
Definition from_page (lower : str -> str) (W : World) (c : Club) : Prop :=
  exists page,
    get_soup W (c_url c) = Some page
    /\ c_name c = extract_name_from_detail page
    /\ c_description c = extract_description_from_detail page
    /\ c_category c
       = guess_category lower (c_name c) (c_description c) (c_url c).

(** The two records have the same sort key. *)
Definition same_key (a b : Club) : bool :=
  negb (key_ltb a b) && negb (key_ltb b a).

(** A site that answers every listing URL with the same page. *)
Definition looping_site : World :=
  {| http_get := fun _ =>
       Response 200 [anchor (lit "/clubs/chess") (lit "Chess Club Discover")];
     get_soup := get_soup small_site |}.

(** What the answer to the request of listing page [p] is for the walker:
    a page with cards, a reason to stop, or an error. *)
Definition answers_links (W : World) (p : nat) (links : list str) : Prop :=
  exists code page,
    http_get W (page_url p) = Response code page
    /\ code <> 404 /\ ~ (400 <= code < 600)
    /\ find_club_links page = links /\ links <> [].

Definition stops_walk (W : World) (max_pages p : nat) : Prop :=
  max_pages < p
  \/ (p <= max_pages
      /\ exists code page,
           http_get W (page_url p) = Response code page
           /\ (code = 404
               \/ (~ (400 <= code < 600) /\ find_club_links page = []))).

Definition fails (W : World) (max_pages p : nat) : Prop :=
  p <= max_pages
  /\ (http_get W (page_url p) = ConnectionError
      \/ exists code page,
           http_get W (page_url p) = Response code page
           /\ 400 <= code < 600 /\ code <> 404).

(** * Properties *)

(** ** Text *)

Lemma str_eqb_eq (a b : str) : str_eqb a b = true <-> a = b.
Proof.
  revert b; induction a as [|x a IH]; intros [|y b]; simpl; split;
    try congruence; try reflexivity.
  - rewrite andb_true_iff. intros [Hxy Hab].
    apply N.eqb_eq in Hxy. apply IH in Hab. congruence.
  - intros E; injection E as -> ->. rewrite andb_true_iff; split.
    + apply N.eqb_refl.
    + now apply IH.
Qed.

Lemma str_eqb_refl (a : str) : str_eqb a a = true.
Proof. now apply str_eqb_eq. Qed.

Lemma str_eqb_neq (a b : str) : str_eqb a b = false <-> a <> b.
Proof.
  split.
  - intros H E. apply str_eqb_eq in E. congruence.
  - intros H. destruct (str_eqb a b) eqn:E; [|reflexivity].
    apply str_eqb_eq in E. contradiction.
Qed.

Lemma startswith_iff (t k : str) :
  startswith t k = true <-> exists post, t = k ++ post.
Proof.
  revert t; induction k as [|x k IH]; intros t.
  - split; [intros _; now exists t | intros _; now destruct t].
  - destruct t as [|y t]; simpl.
    + split; [discriminate | intros [post E]; discriminate].
    + rewrite andb_true_iff, IH. unfold char_eqb. rewrite N.eqb_eq. split.
      * intros [-> [post ->]]. now exists post.
      * intros [post E]. injection E as -> ->. split; [reflexivity|].
        now exists post.
Qed.

(** The test [k in t] of the model decides occurrence as a substring. *)
Lemma str_in_occurs (k t : str) : str_in k t = true <-> occurs k t.
Proof.
  unfold occurs. induction t as [|c t IH].
  - cbn [str_in]. rewrite orb_false_r, startswith_iff. split.
    + intros [post E]. now exists [], post.
    + intros [pre [post E]]. destruct pre; [now exists post|discriminate].
  - cbn [str_in]. rewrite orb_true_iff, startswith_iff, IH. split.
    + intros [[post E] | [pre [post E]]].
      * now exists [], post.
      * exists (c :: pre), post. simpl. now rewrite E.
    + intros [[|c' pre] [post E]].
      * left. now exists post.
      * right. injection E as -> ->. now exists pre, post.
Qed.

Lemma any_in_occurs (t : str) (ks : list str) :
  any_in t ks = true <-> exists k, In k ks /\ occurs k t.
Proof.
  unfold any_in. rewrite existsb_exists.
  split; intros [k [Hk H]]; exists k; split; trivial; now apply str_in_occurs.
Qed.

Lemma any_in_none (t : str) (ks : list str) :
  any_in t ks = false <-> forall k, In k ks -> ~ occurs k t.
Proof.
  split.
  - intros H k Hk Ho.
    assert (any_in t ks = true) by (apply any_in_occurs; eauto). congruence.
  - intros H. destruct (any_in t ks) eqn:E; [|reflexivity].
    apply any_in_occurs in E. destruct E as [k [Hk Ho]]. now apply H in Ho.
Qed.

(** ** Categorizer *)

(** A check of the cascade by evaluation gives the absence of keywords. *)
Lemma no_keyword_by_eval (t : str) (rules : list (str * list str)) :
  forallb (fun r => negb (any_in t (snd r))) rules = true ->
  forall c ks k, In (c, ks) rules -> In k ks -> ~ occurs k t.
Proof.
  rewrite forallb_forall. intros H c ks k Hin Hk.
  specialize (H _ Hin). simpl in H. apply negb_true_iff in H.
  now apply (proj1 (any_in_none t ks)).
Qed.

Lemma first_match_skip (t : str) (before after : list (str * list str))
      (c : str) (ks : list str) :
  (forall c' ks' k, In (c', ks') before -> In k ks' -> ~ occurs k t) ->
  (exists k, In k ks /\ occurs k t) ->
  first_match t (before ++ (c, ks) :: after) = c.
Proof.
  unfold first_match. induction before as [|[c0 ks0] before IH]; intros Hb Hk.
  - simpl. apply any_in_occurs in Hk. now rewrite Hk.
  - simpl.
    assert (E : any_in t ks0 = false).
    { apply any_in_none. intros k Hin. apply (Hb c0 ks0); simpl; auto. }
    rewrite E. apply IH; trivial.
    intros c' ks' k Hin. apply (Hb c' ks'). now right.
Qed.

Lemma guess_category_first_match (lower : str -> str) (name desc url : str) :
  guess_category lower name desc url
  = first_match (category_text lower name desc url) cascade.
Proof.
  unfold guess_category, first_match, cascade. cbn [List.find snd fst].
  repeat match goal with
         | |- context [if ?b then _ else _] => destruct b; [reflexivity|]
         end.
  reflexivity.
Qed.

Lemma guess_category_in_CATEGORIES (lower : str -> str) (name desc url : str) :
  In (guess_category lower name desc url) CATEGORIES.
Proof.
  unfold guess_category, CATEGORIES.
  repeat match goal with
         | |- context [if ?b then _ else _] => destruct b
         end; simpl; tauto.
Qed.

(** C1.  [guess_category] tests the keyword lists in the order Business,
    Technology, Sciences, Athletic, Service, Cultural, Recreational on the
    lower-cased text "name desc url": it is the first-match reading of the
    ordered cascade; the label of the first list with a keyword occurring
    in the text is returned; a text with a Business keyword and a
    Technology keyword gives "Business". *)
Theorem guess_category_cascade (lower : str -> str) (name desc url : str) :
  let t := lower (name ++ lit " " ++ desc ++ lit " " ++ url) in
  List.map fst cascade
  = [lit "Business"; lit "Technology"; lit "Sciences"; lit "Athletic";
     lit "Service"; lit "Cultural"; lit "Recreational"]
  /\ guess_category lower name desc url = first_match t cascade
  /\ (forall before c ks after,
         cascade = before ++ (c, ks) :: after ->
         (forall c' ks' k, In (c', ks') before -> In k ks' -> ~ occurs k t) ->
         (exists k, In k ks /\ occurs k t) ->
         guess_category lower name desc url = c)
  /\ (forall kb kt,
         In kb business_kw -> occurs kb t ->
         In kt technology_kw -> occurs kt t ->
         guess_category lower name desc url = lit "Business").
Proof.
  intros t. split; [reflexivity|]. split; [|split].
  - apply guess_category_first_match.
  - intros before c ks after E Hb Hk.
    rewrite guess_category_first_match, E. now apply first_match_skip.
  - intros kb kt Hkb Hob _ _. unfold guess_category.
    fold t. replace (category_text lower name desc url) with t by reflexivity.
    assert (E : any_in t business_kw = true) by (apply any_in_occurs; eauto).
    now rewrite E.
Qed.

Lemma guess_category_cascade_witness :
  guess_category ascii_lower (lit "Sauder Tech Society")
    (lit "Marketing and data analytics") (lit "https://amsclubs.ca/clubs/sts")
  = lit "Business".
Proof.
  apply (proj2 (proj2 (proj2
           (guess_category_cascade ascii_lower (lit "Sauder Tech Society")
              (lit "Marketing and data analytics")
              (lit "https://amsclubs.ca/clubs/sts")))))
    with (kb := lit "sauder") (kt := lit "tech").
  - vm_compute; tauto.
  - apply str_in_occurs. vm_compute. reflexivity.
  - vm_compute; tauto.
  - apply str_in_occurs. vm_compute. reflexivity.
Defined.

(** C8.  A text with no keyword of the seven lists gives "Other", and
    the result is always one of the 8 labels of [CATEGORIES]. *)
Theorem guess_category_other (lower : str -> str) (name desc url : str) :
  let t := lower (name ++ lit " " ++ desc ++ lit " " ++ url) in
  ((forall c ks k, In (c, ks) cascade -> In k ks -> ~ occurs k t) ->
   guess_category lower name desc url = lit "Other")
  /\ In (guess_category lower name desc url) CATEGORIES
  /\ List.length CATEGORIES = 8 /\ NoDup CATEGORIES.
Proof.
  intros t. split; [|split; [apply guess_category_in_CATEGORIES|split]].
  - intros H. rewrite guess_category_first_match. unfold first_match.
    replace (category_text lower name desc url) with t by reflexivity.
    destruct (List.find _ cascade) as [[c ks]|] eqn:E; [|reflexivity].
    apply find_some in E. destruct E as [Hin Hany]. simpl in Hany.
    apply any_in_occurs in Hany. destruct Hany as [k [Hk Ho]].
    exfalso. exact (H c ks k Hin Hk Ho).
  - reflexivity.
  - unfold CATEGORIES.
    repeat (constructor; [simpl; intros H;
       repeat (destruct H as [H|H]; [discriminate H|]); exact H|]).
    constructor.
Qed.

Lemma guess_category_other_witness :
  guess_category ascii_lower (lit "Chess Club") (lit "We play chess.")
    (lit "https://amsclubs.ca/clubs/chess") = lit "Other".
Proof.
  apply (proj1 (guess_category_other ascii_lower (lit "Chess Club")
                  (lit "We play chess.")
                  (lit "https://amsclubs.ca/clubs/chess"))).
  apply no_keyword_by_eval. vm_compute. reflexivity.
Defined.

(** ** Order on text *)

Lemma str_ltb_irrefl (a : str) : str_ltb a a = false.
Proof.
  induction a as [|x a IH]; simpl; [reflexivity|].
  now rewrite N.ltb_irrefl, N.eqb_refl.
Qed.

Lemma str_leb_lex_le (a b : str) : str_ltb b a = false <-> lex_le a b.
Proof.
  split.
  - revert b; induction a as [|x a IH]; intros b H; [constructor|].
    destruct b as [|y b]; simpl in H; [destruct a; discriminate|].
    destruct (N.ltb_spec y x) as [L|L]; [discriminate|].
    destruct (N.eqb_spec y x) as [->|N].
    + apply lex_eq. now apply IH.
    + apply lex_lt. lia.
  - induction 1 as [b|x y a b L|x a b L IH]; simpl.
    + now destruct b.
    + destruct (N.ltb_spec y x) as [L'|L']; [lia|].
      destruct (N.eqb_spec y x) as [E|N]; [lia|reflexivity].
    + now rewrite N.ltb_irrefl, N.eqb_refl.
Qed.

Lemma str_ltb_asym (a b : str) : str_ltb a b = true -> str_ltb b a = false.
Proof.
  revert b; induction a as [|x a IH]; intros [|y b]; simpl; try congruence.
  destruct (N.ltb_spec x y) as [L|L].
  - intros _. destruct (N.ltb_spec y x); [lia|].
    destruct (N.eqb_spec y x); [lia|reflexivity].
  - destruct (N.eqb_spec x y) as [->|N]; [|discriminate].
    rewrite N.ltb_irrefl, N.eqb_refl. apply IH.
Qed.

Lemma str_leb_trans (a b c : str) :
  str_ltb b a = false -> str_ltb c b = false -> str_ltb c a = false.
Proof.
  revert b c; induction a as [|x a IH]; intros [|y b] [|z c]; simpl;
    try congruence; try (now destruct a); try (now destruct b).
  destruct (N.ltb_spec y x) as [L1|L1]; [discriminate|].
  destruct (N.ltb_spec z y) as [L2|L2]; [intros _; discriminate|].
  destruct (N.eqb_spec y x) as [E1|N1]; destruct (N.eqb_spec z y) as [E2|N2];
      subst; intros H1 H2.
    + rewrite N.ltb_irrefl, N.eqb_refl. eapply IH; eauto.
    + destruct (N.ltb_spec z x); [lia|].
      destruct (N.eqb_spec z x); [lia|reflexivity].
    + destruct (N.ltb_spec y x); [lia|].
      destruct (N.eqb_spec y x); [lia|reflexivity].
    + destruct (N.ltb_spec z x); [lia|].
      destruct (N.eqb_spec z x); [lia|reflexivity].
Qed.

(** ** The stable sort *)

Section Sorting.

Context {A : Type} (lt : A -> A -> bool).

Lemma insert_by_perm (x : A) (l : list A) :
  Permutation (insert_by lt x l) (x :: l).
Proof.
  induction l as [|y l IH]; simpl; [reflexivity|].
  destruct (lt y x); [|reflexivity].
  rewrite IH. apply perm_swap.
Qed.

Lemma sort_by_perm (l : list A) : Permutation (sort_by lt l) l.
Proof.
  induction l as [|x l IH]; simpl; [reflexivity|].
  rewrite insert_by_perm. now constructor.
Qed.

Lemma sort_by_In (l : list A) (x : A) : In x (sort_by lt l) <-> In x l.
Proof.
  split; apply Permutation_in;
    [apply sort_by_perm | apply Permutation_sym, sort_by_perm].
Qed.

Hypothesis lt_asym : forall x y, lt x y = true -> lt y x = false.

Lemma insert_by_sorted (x : A) (l : list A) :
  Sorted (fun a b => lt b a = false) l ->
  Sorted (fun a b => lt b a = false) (insert_by lt x l).
Proof.
  induction 1 as [|y l Hs IH Hd]; simpl.
  - repeat constructor.
  - destruct (lt y x) eqn:E.
    + constructor; [exact IH|].
      destruct l as [|z l]; simpl.
      * constructor. now apply lt_asym.
      * destruct (lt z x); constructor.
        -- now inversion Hd.
        -- now apply lt_asym.
    + constructor; [now constructor|now constructor].
Qed.

Lemma sort_by_sorted (l : list A) :
  Sorted (fun a b => lt b a = false) (sort_by lt l).
Proof.
  induction l as [|x l IH]; simpl; [constructor|].
  now apply insert_by_sorted.
Qed.

Hypothesis le_trans :
  forall x y z, lt y x = false -> lt z y = false -> lt z x = false.

Lemma sort_by_strongly_sorted (l : list A) :
  StronglySorted (fun a b => lt b a = false) (sort_by lt l).
Proof.
  apply Sorted_StronglySorted; [|apply sort_by_sorted].
  intros x y z. apply le_trans.
Qed.

End Sorting.

(** ** The key of the final sort *)

Lemma key_ltb_asym (a b : Club) : key_ltb a b = true -> key_ltb b a = false.
Proof.
  unfold key_ltb. intros H.
  apply orb_true_iff in H. apply orb_false_iff.
  destruct H as [H|H].
  - apply Nat.ltb_lt in H. split.
    + apply Nat.ltb_ge. lia.
    + apply andb_false_iff. left. apply Nat.eqb_neq. lia.
  - apply andb_true_iff in H. destruct H as [E L].
    apply Nat.eqb_eq in E. split.
    + apply Nat.ltb_ge. lia.
    + apply andb_false_iff. right. now apply str_ltb_asym.
Qed.

Lemma key_leb_spec (a b : Club) :
  key_ltb b a = false <->
  rank (c_category a) < rank (c_category b)
  \/ (rank (c_category a) = rank (c_category b)
      /\ str_ltb (c_name b) (c_name a) = false).
Proof.
  unfold key_ltb. rewrite orb_false_iff, andb_false_iff.
  rewrite Nat.ltb_ge, Nat.eqb_neq. split.
  - intros [H1 [H2|H2]]; [left; lia|].
    destruct (Nat.eq_dec (rank (c_category a)) (rank (c_category b)));
      [right; tauto | left; lia].
  - intros [H|[H1 H2]]; (split; [lia|]); [left; lia | now right].
Qed.

Lemma key_leb_trans (a b c : Club) :
  key_ltb b a = false -> key_ltb c b = false -> key_ltb c a = false.
Proof.
  rewrite !key_leb_spec.
  intros [H1|[H1 L1]] [H2|[H2 L2]]; try (left; lia).
  right. split; [lia|]. eapply str_leb_trans; eauto.
Qed.

Lemma key_leb_club_le (a b : Club) : key_ltb b a = false -> club_le a b.
Proof.
  rewrite key_leb_spec. unfold club_le.
  intros [H|[H L]]; split; try lia.
  - intros E. rewrite E in H. lia.
  - intros _. now apply str_leb_lex_le.
Qed.

Lemma sort_clubs_sorted (l : list Club) :
  StronglySorted club_le (sort_by key_ltb l).
Proof.
  pose proof (sort_by_strongly_sorted key_ltb key_ltb_asym key_leb_trans l)
    as H.
  induction H as [|a l' Hs IH Hf]; constructor; [exact IH|].
  eapply Forall_impl; [|exact Hf]. intros b. apply key_leb_club_le.
Qed.

Lemma index_of_nth (x : str) (l : list str) (i : nat) :
  index_of x l = Some i -> nth_error l i = Some x.
Proof.
  revert i; induction l as [|y l IH]; intros i; simpl; [discriminate|].
  destruct (str_eqb y x) eqn:E.
  - intros [= <-]. apply str_eqb_eq in E. now subst.
  - destruct (index_of x l) as [j|]; [|discriminate].
    intros [= <-]. simpl. now apply IH.
Qed.

Lemma index_of_In (x : str) (l : list str) :
  In x l -> exists i, index_of x l = Some i.
Proof.
  induction l as [|y l IH]; simpl; [tauto|].
  intros [->|H].
  - rewrite str_eqb_refl. now exists 0.
  - destruct (str_eqb y x); [now exists 0|].
    destruct (IH H) as [i ->]. now exists (S i).
Qed.

(** The rank of a label of [CATEGORIES] is its index in that list. *)
Lemma rank_is_index (cat : str) :
  In cat CATEGORIES -> nth_error CATEGORIES (rank cat) = Some cat.
Proof.
  intros H. unfold rank. destruct (index_of_In _ _ H) as [i E].
  rewrite E. now apply index_of_nth.
Qed.

(** ** [strip] *)

Lemma lstrip_head (s : str) : isspace (hd 0%N (lstrip s)) = false.
Proof.
  induction s as [|c s IH]; simpl; [reflexivity|].
  destruct (isspace c) eqn:E; [exact IH|exact E].
Qed.

Lemma lstrip_id (s : str) : isspace (hd 0%N s) = false -> lstrip s = s.
Proof. destruct s as [|c s]; simpl; [reflexivity|]. now intros ->. Qed.

Lemma lstrip_all_space (s : str) : forallb isspace s = true -> lstrip s = [].
Proof.
  induction s as [|c s IH]; simpl; [reflexivity|].
  rewrite andb_true_iff. intros [-> H]. now apply IH.
Qed.

Lemma lstrip_snoc (m : str) (c : char) :
  isspace c = false -> exists l, lstrip (m ++ [c]) = l ++ [c].
Proof.
  intros Hc. induction m as [|x m IH]; simpl.
  - rewrite Hc. now exists [].
  - destruct (isspace x); [exact IH|]. now exists (x :: m).
Qed.

Lemma hd_rev_last (s : str) (d : char) : hd d (List.rev s) = last s d.
Proof.
  induction s as [|c s IH]; [reflexivity|].
  destruct s as [|c' s]; [reflexivity|].
  change (last (c :: c' :: s) d) with (last (c' :: s) d). rewrite <- IH.
  simpl. destruct (List.rev s ++ [c']) eqn:E; [|reflexivity].
  destruct (List.rev s); discriminate.
Qed.

Lemma rstrip_last (s : str) : isspace (last (rstrip s) 0%N) = false.
Proof.
  unfold rstrip. rewrite <- hd_rev_last, rev_involutive. apply lstrip_head.
Qed.

Lemma rstrip_id (s : str) : isspace (last s 0%N) = false -> rstrip s = s.
Proof.
  intros H. unfold rstrip. rewrite lstrip_id; [apply rev_involutive|].
  now rewrite hd_rev_last.
Qed.

(** [rstrip] keeps a first character that is not white space. *)
Lemma rstrip_cons (c : char) (s : str) :
  isspace c = false -> exists s', rstrip (c :: s) = c :: s'.
Proof.
  intros Hc. unfold rstrip. simpl.
  destruct (lstrip_snoc (List.rev s) c Hc) as [l ->].
  rewrite rev_app_distr. simpl. now exists (List.rev l).
Qed.

Lemma rstrip_head (s : str) :
  isspace (hd 0%N s) = false -> isspace (hd 0%N (rstrip s)) = false.
Proof.
  destruct s as [|c s]; [intros _; reflexivity|]. simpl. intros Hc.
  destruct (rstrip_cons c s Hc) as [s' ->]. exact Hc.
Qed.

Lemma strip_head (s : str) : isspace (hd 0%N (strip s)) = false.
Proof. apply rstrip_head, lstrip_head. Qed.

Lemma strip_last (s : str) : isspace (last (strip s) 0%N) = false.
Proof. apply rstrip_last. Qed.

Lemma strip_id (s : str) :
  isspace (hd 0%N s) = false -> isspace (last s 0%N) = false -> strip s = s.
Proof. intros H1 H2. unfold strip. rewrite lstrip_id; trivial. now apply rstrip_id. Qed.

Lemma strip_idempotent (s : str) : strip (strip s) = strip s.
Proof. apply strip_id; [apply strip_head|apply strip_last]. Qed.

Lemma strip_all_space (s : str) : forallb isspace s = true -> strip s = [].
Proof. intros H. unfold strip. now rewrite lstrip_all_space. Qed.

(** A text that starts with a character other than white space is not
    emptied by [strip]. *)
Lemma strip_nonempty (s : str) :
  isspace (hd 0%N s) = false -> nonempty s = true -> nonempty (strip s) = true.
Proof.
  destruct s as [|c s]; [discriminate|]. simpl. intros Hc _.
  unfold strip. rewrite lstrip_id by exact Hc.
  destruct (rstrip_cons c s Hc) as [s' ->]. reflexivity.
Qed.

(** ** [get_text] *)

Lemma join_nil_head (parts : list str) :
  Forall (fun p => nonempty p = true /\ isspace (hd 0%N p) = false) parts ->
  isspace (hd 0%N (join [] parts)) = false.
Proof.
  intros H. destruct H as [|p parts [Hn Hh] _]; [reflexivity|].
  destruct p as [|c p]; [discriminate|].
  destruct parts; exact Hh.
Qed.

Lemma last_app_nonempty (a b : str) (d : char) :
  nonempty b = true -> last (a ++ b) d = last b d.
Proof.
  intros Hb. induction a as [|x a IH]; [reflexivity|].
  simpl. destruct (a ++ b) eqn:E; [|exact IH].
  destruct a; [simpl in E; subst b|]; discriminate.
Qed.

Lemma join_nil_nonempty (parts : list str) :
  Forall (fun p => nonempty p = true) parts ->
  nonempty parts = true -> nonempty (join [] parts) = true.
Proof.
  intros H. destruct H as [|p parts Hn _]; [discriminate|]. intros _.
  destruct p as [|c p]; [discriminate|]. now destruct parts.
Qed.

Lemma join_nil_last (parts : list str) :
  Forall (fun p => nonempty p = true /\ isspace (last p 0%N) = false) parts ->
  isspace (last (join [] parts) 0%N) = false.
Proof.
  induction 1 as [|p parts [Hn Hl] Hf IH]; [reflexivity|].
  destruct parts as [|q parts]; [exact Hl|].
  change (join [] (p :: q :: parts)) with (p ++ [] ++ join [] (q :: parts)).
  change ([] ++ join [] (q :: parts)) with (join [] (q :: parts)).
  rewrite last_app_nonempty; [exact IH|].
  apply join_nil_nonempty; [|reflexivity].
  eapply Forall_impl; [|exact Hf]. now intros a [Ha _].
Qed.

Lemma text_parts_ok (l : list str) :
  Forall (fun p => nonempty p = true /\ isspace (hd 0%N p) = false
                   /\ isspace (last p 0%N) = false)
         (filter nonempty (List.map strip l)).
Proof.
  apply Forall_forall. intros p Hp. apply filter_In in Hp.
  destruct Hp as [Hin Hn]. apply in_map_iff in Hin.
  destruct Hin as [s [<- _]]. split; [exact Hn|].
  split; [apply strip_head|apply strip_last].
Qed.

Lemma get_text_head (el : element) :
  isspace (hd 0%N (get_text [] el)) = false.
Proof.
  unfold get_text. apply join_nil_head.
  eapply Forall_impl; [|apply text_parts_ok]. simpl; tauto.
Qed.

Lemma get_text_last (el : element) :
  isspace (last (get_text [] el) 0%N) = false.
Proof.
  unfold get_text. apply join_nil_last.
  eapply Forall_impl; [|apply text_parts_ok]. simpl; tauto.
Qed.

(** ** The title pattern *)

Lemma lstrip_split (s : str) :
  exists ws, forallb isspace ws = true /\ s = ws ++ lstrip s.
Proof.
  induction s as [|c s [ws [Hws E]]]; [now exists []|]. simpl.
  destruct (isspace c) eqn:Hc.
  - exists (c :: ws). simpl. rewrite Hc, Hws. split; [reflexivity|congruence].
  - now exists [].
Qed.

Lemma rstrip_split (s : str) :
  exists ws, forallb isspace ws = true /\ s = rstrip s ++ ws.
Proof.
  destruct (lstrip_split (List.rev s)) as [ws [Hws E]].
  exists (List.rev ws). split.
  - apply forallb_forall. intros c Hc. apply in_rev in Hc.
    now apply (proj1 (forallb_forall _ _) Hws).
  - unfold rstrip. rewrite <- rev_app_distr, <- E. symmetry.
    apply rev_involutive.
Qed.

Lemma lstrip_spaces_app (ws r : str) :
  forallb isspace ws = true -> lstrip (ws ++ r) = lstrip r.
Proof.
  induction ws as [|c ws IH]; simpl; [reflexivity|].
  rewrite andb_true_iff. intros [-> H]. now apply IH.
Qed.

Lemma lstrip_In (s : str) (c : char) : In c (lstrip s) -> In c s.
Proof.
  induction s as [|x s IH]; simpl; [tauto|].
  destruct (isspace x); simpl; tauto.
Qed.

(** In front of a text that has some character other than white space,
    [lstrip] stops inside that text. *)
Lemma lstrip_app_solid (a r : str) :
  nonempty a = true -> isspace (last a 0%N) = false ->
  exists c a', lstrip (a ++ r) = c :: a' ++ r /\ In c a.
Proof.
  induction a as [|x a IH]; [discriminate|]. intros _ Hl.
  simpl. destruct (isspace x) eqn:Hx.
  - destruct a as [|y a]; [simpl in Hl; congruence|].
    destruct (IH eq_refl Hl) as [c [a' [E Hc]]].
    exists c, a'. split; [exact E|now right].
  - exists x, a. split; [reflexivity|now left].
Qed.

Lemma dot_star_end_no_newline (b : str) :
  ~ In newline b -> dot_star_end b = Some [].
Proof.
  induction b as [|c b IH]; simpl; [reflexivity|]. intros H.
  unfold char_eqb. destruct (N.eqb_spec c newline) as [E|N].
  - exfalso. apply H. now left.
  - apply IH. tauto.
Qed.

(** What the match leaves is empty, or the line break that ends the text. *)
Lemma dot_star_end_rest (b rest : str) :
  dot_star_end b = Some rest ->
  rest = [] \/ (rest = [newline] /\ last b 0%N = newline).
Proof.
  induction b as [|c b IH]; simpl.
  - intros [= <-]. now left.
  - unfold char_eqb. destruct (N.eqb_spec c newline) as [E|N].
    + destruct b; [|discriminate]. intros [= <-]. right. now subst.
    + intros H. destruct (IH H) as [->|[-> Hl]]; [now left|right].
      split; [reflexivity|]. destruct b; [discriminate|exact Hl].
Qed.

Lemma match_dash_suffix_no_dash (s : str) :
  ~ In en_dash s -> match_dash_suffix s = None.
Proof.
  intros H. unfold match_dash_suffix.
  destruct (lstrip s) as [|c s'] eqn:E; [reflexivity|].
  unfold char_eqb. destruct (N.eqb_spec c en_dash) as [->|N]; [|reflexivity].
  exfalso. apply H. apply lstrip_In. rewrite E. now left.
Qed.

Lemma strip_dash_suffix_no_dash (s : str) :
  ~ In en_dash s -> strip_dash_suffix s = s.
Proof.
  induction s as [|c s IH]; intros H.
  - reflexivity.
  - cbn [strip_dash_suffix]. rewrite match_dash_suffix_no_dash by exact H.
    rewrite IH; [reflexivity|]. simpl in H. tauto.
Qed.

(** The text is cut before the first en-dash and the white space in front
    of it, when no line break comes after that en-dash. *)
Lemma strip_dash_suffix_cut (a ws b : str) :
  ~ In en_dash a -> isspace (last a 0%N) = false ->
  forallb isspace ws = true -> ~ In newline b ->
  strip_dash_suffix (a ++ ws ++ en_dash :: b) = a.
Proof.
  intros Ha Hl Hws Hb. induction a as [|x a IH].
  - simpl app. destruct (ws ++ en_dash :: b) eqn:E; cbn [strip_dash_suffix];
      unfold match_dash_suffix; rewrite <- E, lstrip_spaces_app by exact Hws;
      simpl; now rewrite dot_star_end_no_newline.
  - change ((x :: a) ++ ws ++ en_dash :: b)
      with (x :: a ++ ws ++ en_dash :: b).
    cbn [strip_dash_suffix].
    assert (M : match_dash_suffix (x :: a ++ ws ++ en_dash :: b) = None).
    { unfold match_dash_suffix.
      destruct (lstrip_app_solid (x :: a) (ws ++ en_dash :: b) eq_refl Hl)
        as [c [a' [E Hc]]].
      change ((x :: a) ++ ws ++ en_dash :: b)
        with (x :: a ++ ws ++ en_dash :: b) in E. rewrite E.
      unfold char_eqb. destruct (N.eqb_spec c en_dash) as [->|N];
        [contradiction|reflexivity]. }
    rewrite M. f_equal. apply IH.
    + simpl in Ha. tauto.
    + destruct a; [reflexivity|exact Hl].
Qed.

Lemma first_dash_split (t : str) :
  In en_dash t -> exists p b, t = p ++ en_dash :: b /\ ~ In en_dash p.
Proof.
  induction t as [|c t IH]; simpl; [tauto|]. intros H.
  destruct (N.eq_dec c en_dash) as [->|N].
  - exists [], t. split; [reflexivity|simpl; tauto].
  - destruct H as [H|H]; [contradiction|].
    destruct (IH H) as [p [b [-> Hp]]]. exists (c :: p), b.
    split; [reflexivity|]. simpl. intros [E|E]; [congruence|tauto].
Qed.

Lemma after_first_dash_app (p b : str) :
  ~ In en_dash p -> after_first_dash (p ++ en_dash :: b) = b.
Proof.
  induction p as [|c p IH]; intros Hp.
  - reflexivity.
  - cbn [app after_first_dash]. unfold char_eqb.
    destruct (N.eqb_spec c en_dash) as [E|N].
    + exfalso. apply Hp. now left.
    + apply IH. simpl in Hp. tauto.
Qed.

Lemma strip_dash_suffix_removed (t : str) :
  ~ In newline (after_first_dash t) ->
  dash_suffix_removed t (strip_dash_suffix t).
Proof.
  intros Hn. destruct (in_dec N.eq_dec en_dash t) as [Hd|Hd].
  - destruct (first_dash_split t Hd) as [p [b [E Hp]]].
    destruct (rstrip_split p) as [ws [Hws Ep]].
    assert (Ha : ~ In en_dash (rstrip p)).
    { intros H. apply Hp. rewrite Ep. apply in_or_app. now left. }
    assert (Et : t = rstrip p ++ ws ++ en_dash :: b).
    { rewrite E at 1. rewrite Ep at 1. now rewrite <- app_assoc. }
    assert (Hb : ~ In newline b).
    { rewrite E, (after_first_dash_app p b Hp) in Hn. exact Hn. }
    assert (R : strip_dash_suffix t = rstrip p).
    { rewrite Et. apply strip_dash_suffix_cut; trivial. apply rstrip_last. }
    rewrite R. right. split; [exact Ha|]. split; [apply rstrip_last|].
    now exists ws, b.
  - rewrite strip_dash_suffix_no_dash by exact Hd. left. now split.
Qed.

(** When the text neither begins nor ends with white space, what the
    pattern leaves begins with a character other than white space. *)
Lemma strip_dash_suffix_head (t : str) :
  isspace (hd 0%N t) = false -> isspace (last t 0%N) = false ->
  isspace (hd 0%N (strip_dash_suffix t)) = false.
Proof.
  destruct t as [|c t]; [reflexivity|]. intros Hh Hl.
  cbn [strip_dash_suffix]. unfold match_dash_suffix.
  rewrite lstrip_id by exact Hh.
  unfold char_eqb. destruct (N.eqb_spec c en_dash) as [E|N]; [|exact Hh].
  destruct (dot_star_end t) as [rest|] eqn:D; [|exact Hh].
  destruct (dot_star_end_rest _ _ D) as [->|[-> Hnl]]; [reflexivity|].
  exfalso. destruct t as [|y t]; [discriminate|].
  change (last (c :: y :: t) 0%N) with (last (y :: t) 0%N) in Hl.
  rewrite Hnl in Hl. discriminate.
Qed.

(** ** Name extraction *)

Lemma first_heading_head (page : soup) (tags : list str) (name : str) :
  first_heading page tags = Some name ->
  nonempty name = true /\ isspace (hd 0%N name) = false.
Proof.
  induction tags as [|t tags IH]; simpl; [discriminate|].
  destruct (soup_find t page) as [h|]; [|exact IH].
  destruct (nonempty (get_text [] h)) eqn:E; [|exact IH].
  intros [= <-]. split; [exact E|apply get_text_head].
Qed.

Lemma extract_name_head (page : soup) :
  isspace (hd 0%N (extract_name_from_detail page)) = false.
Proof.
  unfold extract_name_from_detail.
  destruct (first_heading _ _) as [name|] eqn:E.
  - now apply first_heading_head in E.
  - destruct (soup_find _ page) as [title|]; [|reflexivity].
    apply strip_dash_suffix_head; [apply get_text_head|apply get_text_last].
Qed.

(** A name that is not empty is not emptied by the [strip] of [main]. *)
Lemma extract_name_strip (page : soup) :
  nonempty (strip (extract_name_from_detail page))
  = nonempty (extract_name_from_detail page).
Proof.
  destruct (nonempty (extract_name_from_detail page)) eqn:E.
  - apply strip_nonempty; [apply extract_name_head|exact E].
  - destruct (extract_name_from_detail page); [reflexivity|discriminate].
Qed.

Lemma extract_name_strategies (page : soup) :
  extract_name_from_detail page = first_success name_strategies page.
Proof.
  unfold extract_name_from_detail, name_strategies, first_success,
    first_heading, heading_text, title_text.
  repeat match goal with
         | |- context [match soup_find ?t page with _ => _ end] =>
             destruct (soup_find t page)
         | |- context [if nonempty ?x then _ else _] => destruct (nonempty x)
         end; reflexivity.
Qed.

(** ** Sets of links *)

Lemma mem_In (x : str) (s : list str) : mem x s = true <-> In x s.
Proof.
  unfold mem. rewrite existsb_exists. split.
  - intros [y [Hy E]]. apply str_eqb_eq in E. now subst.
  - intros H. exists x. split; [exact H|apply str_eqb_refl].
Qed.

Lemma mem_not_In (x : str) (s : list str) : mem x s = false <-> ~ In x s.
Proof.
  rewrite <- mem_In. destruct (mem x s); split; congruence.
Qed.

Lemma set_add_In (x u : str) (s : list str) :
  In u (set_add x s) <-> u = x \/ In u s.
Proof.
  unfold set_add. destruct (mem x s) eqn:E.
  - apply mem_In in E. split; [tauto|]. intros [->|H]; trivial.
  - rewrite in_app_iff. simpl. split; intros H; intuition congruence.
Qed.

Lemma In_by_eval (c : char) (s : str) : existsb (N.eqb c) s = true -> In c s.
Proof.
  rewrite existsb_exists. intros [x [Hx E]]. apply N.eqb_eq in E. now subst.
Qed.

Lemma not_In_by_eval (c : char) (s : str) :
  existsb (N.eqb c) s = false -> ~ In c s.
Proof.
  intros E H. assert (existsb (N.eqb c) s = true); [|congruence].
  apply existsb_exists. exists c. split; [exact H|apply N.eqb_refl].
Qed.

(** ** Listing link extractor *)

Lemma before_hash_no_fragment (s : str) : no_fragment (before_hash s).
Proof.
  unfold no_fragment. induction s as [|c s IH]; simpl; [tauto|].
  unfold char_eqb. destruct (N.eqb_spec c hash) as [E|N]; simpl; [tauto|].
  intros [H|H]; [congruence|tauto].
Qed.

Lemma before_hash_app (p x : str) :
  ~ In hash p -> before_hash (p ++ x) = p ++ before_hash x.
Proof.
  induction p as [|c p IH]; simpl; [reflexivity|]. intros H.
  unfold char_eqb. destruct (N.eqb_spec c hash) as [E|N].
  - exfalso. apply H. now left.
  - f_equal. apply IH. tauto.
Qed.

Lemma BASE_no_hash : ~ In hash BASE.
Proof. apply not_In_by_eval. reflexivity. Qed.

Lemma startswith_app (p x : str) : startswith (p ++ x) p = true.
Proof. apply startswith_iff. now exists x. Qed.

Lemma collect_link_kept (hrefs : list str) (a : element) :
  collect_link hrefs a
  = match kept_link a with
    | Some u => set_add u hrefs
    | None => hrefs
    end.
Proof.
  unfold collect_link, kept_link.
  destruct (str_in _ _); [|reflexivity].
  destruct (attr _ _) as [h|]; [|reflexivity].
  destruct (startswith h (lit "/")).
  - now rewrite startswith_app.
  - now destruct (startswith h BASE).
Qed.

Lemma fold_collect_In (l : list element) (acc : list str) (u : str) :
  In u (fold_left collect_link l acc)
  <-> In u acc \/ exists a, In a l /\ kept_link a = Some u.
Proof.
  revert acc; induction l as [|a l IH]; intros acc; simpl.
  - split; [tauto|]. intros [H|[a [[] _]]]. exact H.
  - rewrite IH, collect_link_kept. destruct (kept_link a) as [v|] eqn:E.
    + rewrite set_add_In. split.
      * intros [[->|H]|[b [Hb Eb]]]; [right; exists a|left|right; exists b];
          tauto.
      * intros [H|[b [[<-|Hb] Eb]]]; [tauto| |right; exists b; tauto].
        left; left. congruence.
    + split.
      * intros [H|[b [Hb Eb]]]; [tauto|right; exists b; tauto].
      * intros [H|[b [[<-|Hb] Eb]]]; [tauto|congruence|right; exists b; tauto].
Qed.

Lemma find_club_links_In (page : soup) (u : str) :
  In u (find_club_links page)
  <-> exists a, In a (anchors page) /\ kept_link a = Some u.
Proof.
  unfold find_club_links. rewrite sort_by_In, fold_collect_In.
  simpl. tauto.
Qed.

Lemma kept_link_prefix (a : element) (u : str) :
  kept_link a = Some u -> startswith u BASE = true /\ no_fragment u.
Proof.
  unfold kept_link. destruct (str_in _ _); [|discriminate].
  destruct (attr _ _) as [h|]; [|discriminate].
  destruct (startswith h (lit "/")).
  - intros Eu. assert (u = before_hash (BASE ++ h)) by congruence. subst u.
    split; [|apply before_hash_no_fragment].
    rewrite before_hash_app by apply BASE_no_hash. apply startswith_app.
  - destruct (startswith h BASE) eqn:E; [|discriminate].
    intros Eu. assert (u = before_hash h) by congruence. subst u.
    split; [|apply before_hash_no_fragment].
    apply startswith_iff in E. destruct E as [post ->].
    rewrite before_hash_app by apply BASE_no_hash. apply startswith_app.
Qed.

(** Every link of a listing page starts with the site base, and so with
    a scheme, and has no fragment. *)
Lemma find_club_links_prefix (page : soup) (u : str) :
  In u (find_club_links page) ->
  startswith u BASE = true /\ absolute u = true /\ no_fragment u.
Proof.
  intros H. apply find_club_links_In in H. destruct H as [a [_ E]].
  apply kept_link_prefix in E. destruct E as [Hb Hf].
  split; [exact Hb|split; [|exact Hf]].
  apply startswith_iff in Hb. destruct Hb as [post ->]. reflexivity.
Qed.

(** C3.  Every link returned by [find_club_links] should be absolute, on
    the site's own domain and without fragment.  The test of the source is
    a prefix test against the base without a closing ["/"]: on a listing
    page with the anchor [<a href="https://amsclubs.ca.evil.example/join">]
    it returns that link, whose host is not [amsclubs.ca]. *)
Theorem find_club_links_foreign_host :
  let u := lit "https://amsclubs.ca.evil.example/join" in
  find_club_links [anchor u (lit "Chess Club Discover")] = [u]
  /\ absolute u = true /\ no_fragment u
  /\ authority u = Some (lit "amsclubs.ca.evil.example")
  /\ ~ on_site u.
Proof.
  intros u. split; [reflexivity|]. split; [reflexivity|].
  split; [apply not_In_by_eval; reflexivity|].
  split; [reflexivity|]. unfold on_site. vm_compute. discriminate.
Qed.

(** The claim C9 as it is worded makes a scheme-relative href one of the
    discarded ones; it starts with ["/"] and is kept. *)
Lemma scheme_relative_href_kept :
  ~ (forall a h, attr (lit "href") (attrs a) = Some h ->
                 startswith h (lit "//") = true -> discarded a).
Proof.
  intros H.
  specialize (H (anchor (lit "//cdn.example.org/chess")
                        (lit "Chess Club Discover"))
                (lit "//cdn.example.org/chess") eq_refl eq_refl []).
  vm_compute in H. discriminate H.
Qed.

(** C9 (amended).  [find_club_links] keeps the href of an anchor only when
    the text of the anchor contains "Discover" and the href starts with
    ["/"] (the site base is then put in front; this includes a
    scheme-relative href ["//host/path"]) or starts with the site base
    string.  An anchor whose text lacks "Discover" is discarded whatever
    its href, and so is one whose href starts with neither: a bare relative
    path or an absolute URL that does not start with the base string. *)
Theorem find_club_links_keeps (page : soup) :
  (forall u, In u (find_club_links page) <->
             exists a h, In a (anchors page)
               /\ attr (lit "href") (attrs a) = Some h
               /\ str_in (lit "Discover") (get_text (lit " ") a) = true
               /\ ((startswith h (lit "/") = true
                    /\ u = before_hash (BASE ++ h))
                   \/ (startswith h (lit "/") = false
                       /\ startswith h BASE = true /\ u = before_hash h)))
  /\ (forall a, str_in (lit "Discover") (get_text (lit " ") a) = false ->
                discarded a)
  /\ (forall a h, attr (lit "href") (attrs a) = Some h ->
                  startswith h (lit "/") = false ->
                  startswith h BASE = false -> discarded a)
  /\ (forall a h hrefs,
         str_in (lit "Discover") (get_text (lit " ") a) = true ->
         attr (lit "href") (attrs a) = Some h ->
         startswith h (lit "//") = true ->
         collect_link hrefs a = set_add (before_hash (BASE ++ h)) hrefs).
Proof.
  split; [|split; [|split]].
  - intros u. rewrite find_club_links_In. split.
    + intros [a [Ha E]]. unfold kept_link in E.
      destruct (str_in _ _) eqn:D; [|discriminate].
      destruct (attr _ _) as [h|] eqn:Eh; [|discriminate].
      exists a, h. repeat (split; [trivial|]).
      destruct (startswith h (lit "/")) eqn:S1.
      * left. split; [reflexivity|congruence].
      * destruct (startswith h BASE) eqn:S2; [|discriminate].
        right. repeat split. congruence.
    + intros [a [h [Ha [Eh [D C]]]]]. exists a. split; [exact Ha|].
      unfold kept_link. rewrite D, Eh.
      destruct C as [[-> ->]|[-> [-> ->]]]; reflexivity.
  - intros a D hrefs. rewrite collect_link_kept. unfold kept_link.
    now rewrite D.
  - intros a h Eh S1 S2 hrefs. rewrite collect_link_kept. unfold kept_link.
    rewrite Eh, S1, S2. now destruct (str_in _ _).
  - intros a h hrefs D Eh S. rewrite collect_link_kept. unfold kept_link.
    rewrite D, Eh.
    assert (S1 : startswith h (lit "/") = true).
    { apply startswith_iff in S. destruct S as [post ->]. reflexivity. }
    now rewrite S1.
Qed.

Lemma find_club_links_keeps_witness :
  discarded (anchor (lit "clubs/chess") (lit "Chess Club Discover")).
Proof.
  apply (proj1 (proj2 (proj2 (find_club_links_keeps []))))
    with (h := lit "clubs/chess"); reflexivity.
Defined.

(** C6.  [extract_name_from_detail] falls back from the headings to the
    page title with its trailing en-dash suffix removed.  The pattern of
    the source removes the suffix of a title written on one line; its [.]
    stops at a line break and its [$] holds only at the end of the text,
    so a title with a line break after the en-dash comes back whole, the
    suffix still in it. *)
Theorem title_line_break_keeps_suffix :
  let one_line := lit "Chess Club " ++ [en_dash] ++ lit " AMS Clubs" in
  let two_lines :=
    lit "Chess Club " ++ [en_dash] ++ lit " AMS" ++ [newline] ++ lit "Clubs" in
  extract_name_from_detail (title_page one_line) = lit "Chess Club"
  /\ extract_name_from_detail (title_page two_lines) = two_lines
  /\ In en_dash (extract_name_from_detail (title_page two_lines))
  /\ ~ dash_suffix_removed two_lines
         (extract_name_from_detail (title_page two_lines)).
Proof.
  intros one_line two_lines.
  assert (Hd : In en_dash two_lines) by (apply In_by_eval; reflexivity).
  split; [reflexivity|]. split; [reflexivity|]. split; [exact Hd|].
  change (extract_name_from_detail (title_page two_lines)) with two_lines.
  intros [[H _]|[H _]]; contradiction.
Qed.

(** X15.  [extract_name_from_detail] is an ordered fallback whose first
    success wins: the text of the first level-1 heading when it is not
    empty, else that of the first level-2 heading, else that of the first
    level-3 heading; failing those, the text of the page title, from
    which, when no line break follows its first en-dash, that en-dash, all
    the white space in front of it and all that follows it are removed;
    failing that, the empty text. *)
Theorem extract_name_fallback (page : soup) :
  extract_name_from_detail page = first_success name_strategies page
  /\ (forall t s, heading_text t page = Some s <->
                  exists h, soup_find t page = Some h
                            /\ get_text [] h = s /\ s <> [])
  /\ (forall title, soup_find (lit "title") page = Some title ->
                    ~ In newline (after_first_dash (get_text [] title)) ->
                    exists r, title_text page = Some r
                              /\ dash_suffix_removed (get_text [] title) r)
  /\ (soup_find (lit "title") page = None -> title_text page = None).
Proof.
  split; [apply extract_name_strategies|]. split; [|split].
  - intros t s. unfold heading_text. split.
    + destruct (soup_find t page) as [h|]; [|discriminate].
      destruct (get_text [] h) as [|c x] eqn:E; [discriminate|].
      simpl. intros [= <-]. exists h.
      split; [reflexivity|split; [exact E|discriminate]].
    + intros [h [-> [E Hs]]]. rewrite E.
      destruct s; [contradiction|reflexivity].
  - intros title E Hn. unfold title_text. rewrite E.
    eexists. split; [reflexivity|]. now apply strip_dash_suffix_removed.
  - intros E. unfold title_text. now rewrite E.
Qed.

Lemma extract_name_fallback_witness :
  exists r, title_text (title_page (lit "UBC" ++ [newline]
                                      ++ lit "Chess Club " ++ [en_dash]
                                      ++ lit " AMS Clubs")) = Some r
            /\ dash_suffix_removed
                 (lit "UBC" ++ [newline] ++ lit "Chess Club " ++ [en_dash]
                    ++ lit " AMS Clubs") r.
Proof.
  apply (proj1 (proj2 (proj2 (extract_name_fallback
           (title_page (lit "UBC" ++ [newline] ++ lit "Chess Club "
                          ++ [en_dash] ++ lit " AMS Clubs")))))
           {| tag := lit "title"; attrs := [];
              strings := [lit "UBC" ++ [newline] ++ lit "Chess Club "
                            ++ [en_dash] ++ lit " AMS Clubs"] |}).
  - reflexivity.
  - apply not_In_by_eval. reflexivity.
Defined.

(** ** Pagination walker *)

Lemma page_step_yield (W : World) (max_pages p : nat) (links : list str) :
  page_step W max_pages p = Yield links ->
  p <= max_pages /\ links <> []
  /\ exists code page, http_get W (page_url p) = Response code page
                       /\ code <> 404 /\ find_club_links page = links.
Proof.
  unfold page_step. destruct (Nat.ltb_spec max_pages p); [discriminate|].
  destruct (http_get W (page_url p)) as [|code page]; [discriminate|].
  destruct (Nat.eqb_spec code 404); [discriminate|].
  destruct (Nat.leb 400 code && Nat.ltb code 600); [discriminate|].
  destruct (find_club_links page) as [|u l] eqn:E; [discriminate|].
  intros [= <-]. split; [assumption|]. split; [discriminate|].
  exists code, page. auto.
Qed.

(** The three reasons for which the walker stops without an exception. *)
Lemma page_step_break (W : World) (max_pages p : nat) :
  page_step W max_pages p = Break <->
  max_pages < p
  \/ (p <= max_pages
      /\ exists code page,
           http_get W (page_url p) = Response code page
           /\ (code = 404
               \/ (~ (400 <= code < 600) /\ find_club_links page = []))).
Proof.
  unfold page_step. destruct (Nat.ltb_spec max_pages p) as [L|L].
  - split; [now left|reflexivity].
  - destruct (http_get W (page_url p)) as [|code page].
    + split; [discriminate|].
      intros [H|[_ [c [pg [E _]]]]]; [lia|discriminate].
    + destruct (Nat.eqb_spec code 404) as [E4|N4].
      * split; [|reflexivity]. intros _. right. split; [exact L|].
        exists code, page. auto.
      * destruct (Nat.leb 400 code && Nat.ltb code 600) eqn:R.
        -- apply andb_true_iff in R. destruct R as [R1 R2].
           apply Nat.leb_le in R1. apply Nat.ltb_lt in R2.
           split; [discriminate|].
           intros [H|[_ [c [pg [E [H|[H1 H2]]]]]]]; [lia| |];
             injection E as <- <-; [contradiction|lia].
        -- assert (R' : ~ (400 <= code < 600)).
           { apply andb_false_iff in R. intros [R1 R2].
             destruct R as [R|R];
               [apply Nat.leb_gt in R|apply Nat.ltb_ge in R]; lia. }
           destruct (find_club_links page) as [|u l] eqn:F.
           ++ split; [|reflexivity]. intros _. right. split; [exact L|].
              exists code, page. split; [reflexivity|]. right. now split.
           ++ split; [discriminate|].
              intros [H|[_ [c [pg [E [H|[H1 H2]]]]]]]; [lia| |];
                injection E as <- <-; [contradiction|congruence].
Qed.

Lemma iterate_from_spec (W : World) (max_pages fuel p : nat) :
  S max_pages - p < fuel ->
  exists pages e,
    iterate_from fuel W max_pages p = Some (pages, e)
    /\ List.length pages <= S max_pages - p
    /\ List.map fst pages = seq p (List.length pages)
    /\ (forall q links, In (q, links) pages ->
                        page_step W max_pages q = Yield links /\ links <> [])
    /\ page_step W max_pages (p + List.length pages)
       = match e with Stopped => Break | Raised => Raise end.
Proof.
  revert p; induction fuel as [|fuel IH]; intros p Hf; [lia|].
  cbn [iterate_from]. destruct (page_step W max_pages p) as [links| |] eqn:E.
  - destruct (page_step_yield _ _ _ _ E) as [Hp [Hl _]].
    destruct (IH (S p)) as [pages [e [-> [Hlen [Hseq [Hin Hend]]]]]]; [lia|].
    exists ((p, links) :: pages), e. split; [reflexivity|].
    cbn [List.length List.map fst seq In].
    split; [lia|]. split; [now rewrite Hseq|]. split.
    + intros q l [[= <- <-]|H]; [now split|now apply Hin].
    + now rewrite Nat.add_succ_r.
  - exists [], Stopped. cbn [List.length List.map seq In].
    rewrite Nat.add_0_r.
    split; [reflexivity|]. split; [lia|]. split; [reflexivity|].
    split; [tauto|exact E].
  - exists [], Raised. cbn [List.length List.map seq In].
    rewrite Nat.add_0_r.
    split; [reflexivity|]. split; [lia|]. split; [reflexivity|].
    split; [tauto|exact E].
Qed.

Lemma page_step_yield_iff (W : World) (max_pages p : nat)
      (links : list str) :
  page_step W max_pages p = Yield links
  <-> p <= max_pages /\ answers_links W p links.
Proof.
  unfold page_step, answers_links.
  destruct (Nat.ltb_spec max_pages p) as [L|L].
  - split; [discriminate|]. intros [H _]. lia.
  - destruct (http_get W (page_url p)) as [|code page].
    + split; [discriminate|]. intros [_ [c [pg [E _]]]]. discriminate.
    + destruct (Nat.eqb_spec code 404) as [E4|N4].
      * split; [discriminate|].
        intros [_ [c [pg [E [N _]]]]]. injection E as <- <-. contradiction.
      * destruct (Nat.leb 400 code && Nat.ltb code 600) eqn:R.
        -- apply andb_true_iff in R. destruct R as [R1 R2].
           apply Nat.leb_le in R1. apply Nat.ltb_lt in R2.
           split; [discriminate|].
           intros [_ [c [pg [E [_ [N _]]]]]]. injection E as <- <-. lia.
        -- assert (R' : ~ (400 <= code < 600)).
           { apply andb_false_iff in R. intros [R1 R2].
             destruct R as [R|R];
               [apply Nat.leb_gt in R|apply Nat.ltb_ge in R]; lia. }
           destruct (find_club_links page) as [|u l] eqn:F.
           ++ split; [discriminate|].
              intros [_ [c [pg [E [_ [_ [F' N]]]]]]]. injection E as <- <-.
              rewrite F in F'. now subst links.
           ++ split.
              ** intros [= <-]. split; [exact L|].
                 exists code, page. repeat split; trivial. discriminate.
              ** intros [_ [c [pg [E [_ [_ [F' _]]]]]]]. injection E as <- <-.
                 rewrite F in F'. now subst links.
Qed.

Lemma page_step_raise_iff (W : World) (max_pages p : nat) :
  page_step W max_pages p = Raise <-> fails W max_pages p.
Proof.
  unfold fails. split.
  - unfold page_step.
    destruct (Nat.ltb_spec max_pages p) as [L|L]; [discriminate|].
    intros R0. split; [exact L|].
    destruct (http_get W (page_url p)) as [|code page]; [now left|right].
    destruct (Nat.eqb_spec code 404); [discriminate|].
    destruct (Nat.leb 400 code && Nat.ltb code 600) eqn:R.
    + apply andb_true_iff in R. destruct R as [R1 R2].
      apply Nat.leb_le in R1. apply Nat.ltb_lt in R2.
      exists code, page. auto.
    + destruct (find_club_links page); discriminate.
  - intros [L H]. unfold page_step.
    destruct (Nat.ltb_spec max_pages p) as [L'|_]; [lia|].
    destruct H as [-> | [code [page [-> [[R1 R2] N]]]]]; [reflexivity|].
    destruct (Nat.eqb_spec code 404); [contradiction|].
    apply Nat.leb_le in R1. apply Nat.ltb_lt in R2. now rewrite R1, R2.
Qed.

Lemma seq_fst_In (pages : list (nat * list str)) (k : nat) :
  List.map fst pages = seq 1 (List.length pages) ->
  1 <= k <= List.length pages -> exists links, In (k, links) pages.
Proof.
  intros Hseq Hk.
  assert (Hin : In k (List.map fst pages)).
  { rewrite Hseq. apply in_seq. lia. }
  apply in_map_iff in Hin. destruct Hin as [[q links] [E Hin]].
  simpl in E. subst q. now exists links.
Qed.

(** C5.  [iterate_pages] always ends and yields a finite sequence: it
    starts at page 1 and goes on page by page; every page it yields was
    answered with links; it ends at the first page that is past
    [max_pages] (50 by default), is answered 404 or has no link, yielding
    the pages before it, unless an error of a page ends it first; so it
    yields at most [max_pages] pages. *)
Theorem iterate_pages_finite (W : World) (max_pages : nat) :
  default_max_pages = 50
  /\ exists pages e,
       iterate_pages W max_pages = Some (pages, e)
       /\ List.length pages <= max_pages
       /\ List.map fst pages = seq 1 (List.length pages)
       /\ (forall q links, In (q, links) pages ->
             q <= max_pages /\ answers_links W q links)
       /\ match e with
          | Stopped => stops_walk W max_pages (S (List.length pages))
          | Raised => fails W max_pages (S (List.length pages))
          end
       /\ (forall k,
             1 <= k ->
             (forall q, 1 <= q < k ->
                        q <= max_pages /\ exists links, answers_links W q links) ->
             (stops_walk W max_pages k ->
              e = Stopped /\ List.length pages = k - 1)
             /\ (fails W max_pages k ->
                 e = Raised /\ List.length pages = k - 1)).
Proof.
  split; [reflexivity|].
  destruct (iterate_from_spec W max_pages (S max_pages) 1)
    as [pages [e [E [Hlen [Hseq [Hin Hend]]]]]]; [lia|].
  change (1 + List.length pages) with (S (List.length pages)) in Hend.
  exists pages, e. split; [exact E|]. split; [lia|]. split; [exact Hseq|].
  split; [|split].
  - intros q links H. apply page_step_yield_iff. now apply Hin.
  - destruct e; [now apply page_step_break|now apply page_step_raise_iff].
  - intros k Hk Hbefore.
    assert (Hn : forall out, page_step W max_pages k = out ->
                 (forall links, out <> Yield links) ->
                 List.length pages = k - 1
                 /\ out = match e with Stopped => Break | Raised => Raise end).
    { intros out Ek Hout.
      assert (Ln : S (List.length pages) = k).
      { destruct (Nat.lt_trichotomy (S (List.length pages)) k)
          as [Lt|[Eq|Gt]]; [exfalso|exact Eq|exfalso].
        - destruct (Hbefore (S (List.length pages))) as [Hm [links Ha]];
            [lia|].
          assert (Y : page_step W max_pages (S (List.length pages))
                      = Yield links) by (apply page_step_yield_iff; auto).
          rewrite Y in Hend. destruct e; discriminate.
        - destruct (seq_fst_In pages k Hseq) as [links Hl]; [lia|].
          destruct (Hin k links Hl) as [Y _]. rewrite Y in Ek.
          exact (Hout links (eq_sym Ek)). }
      split; [lia|]. rewrite <- Ek, <- Ln. exact Hend. }
    split; intros Hs.
    + apply page_step_break in Hs.
      destruct (Hn Break Hs) as [L Ee]; [discriminate|].
      split; [|exact L]. destruct e; [reflexivity|discriminate].
    + apply page_step_raise_iff in Hs.
      destruct (Hn Raise Hs) as [L Ee]; [discriminate|].
      split; [|exact L]. destruct e; [discriminate|reflexivity].
Qed.

Lemma iterate_pages_finite_witness :
  exists pages,
    iterate_pages small_site 50 = Some (pages, Stopped)
    /\ List.length pages = 1.
Proof.
  destruct (proj2 (iterate_pages_finite small_site 50))
    as [pages [e [E [_ [_ [_ [_ Hfirst]]]]]]].
  assert (Hb : forall q, 1 <= q < 2 ->
                 q <= 50 /\ exists links, answers_links small_site q links).
  { intros q Hq. assert (Eq : q = 1) by lia. subst q. split; [lia|].
    eexists. exists 200. eexists. split; [vm_compute; reflexivity|].
    split; [discriminate|]. split; [lia|]. split; [reflexivity|].
    vm_compute. discriminate. }
  destruct (proj1 (Hfirst 2 (le_S _ _ (le_n 1)) Hb)) as [Ee Hl].
  - right. split; [lia|]. exists 404, []. split; [reflexivity|now left].
  - subst e. exists pages. split; [exact E|exact Hl].
Defined.

(** ** Orchestrator *)

Section Orchestrator.

Variable lower : str -> str.
Variable W : World.

Lemma parse_detail_failure (url : str) :
  get_soup W url = None -> parse_detail lower W url = empty_detail.
Proof. intros E. unfold parse_detail. now rewrite E. Qed.

Lemma parse_detail_category (url : str) :
  In (d_category (parse_detail lower W url)) CATEGORIES.
Proof.
  unfold parse_detail. destruct (get_soup W url) as [page|]; simpl.
  - apply guess_category_in_CATEGORIES.
  - unfold CATEGORIES. simpl. tauto.
Qed.

(** The name of a detail is not emptied by the [strip] of [main]. *)
Lemma parse_detail_name_strip (url : str) :
  nonempty (strip (d_name (parse_detail lower W url)))
  = nonempty (d_name (parse_detail lower W url)).
Proof.
  unfold parse_detail. destruct (get_soup W url) as [page|]; simpl.
  - apply extract_name_strip.
  - reflexivity.
Qed.

Lemma add_detail_cases (url : str) (detail : Detail) (clubs0 : list Club) :
  (nonempty (strip (d_name detail)) = false
   /\ add_detail url detail clubs0 = clubs0)
  \/ (nonempty (strip (d_name detail)) = true
      /\ add_detail url detail clubs0
         = clubs0 ++ [ {| c_name := strip (d_name detail);
                          c_category := d_category detail;
                          c_description := strip (d_description detail);
                          c_url := url |} ]).
Proof.
  unfold add_detail. destruct (nonempty (strip (d_name detail))); auto.
Qed.

Lemma visit_all_invariant (I : state -> Prop) :
  (forall st url, I st -> I (visit lower W st url)) ->
  forall urls st, I st -> I (visit_all lower W urls st).
Proof.
  intros Hv urls. unfold visit_all.
  induction urls as [|u urls IH]; intros st Hst; simpl; [exact Hst|].
  apply IH. now apply Hv.
Qed.

Lemma crawl_invariant (I : state -> Prop) :
  (forall st url, I st -> I (visit lower W st url)) ->
  forall fuel p st st',
    I st -> crawl lower fuel W p st = Some (Finished st') -> I st'.
Proof.
  intros Hv. induction fuel as [|fuel IH]; intros p st st' Hst; simpl;
    [discriminate|].
  destruct (page_step W default_max_pages p) as [links| |];
    [|intros [= <-]; exact Hst|discriminate].
  destruct (_ && _).
  - intros [= <-]. exact Hst.
  - apply IH. now apply visit_all_invariant.
Qed.

Lemma crawl_total (fuel p : nat) (st : state) :
  S default_max_pages - p < fuel ->
  exists r, crawl lower fuel W p st = Some r.
Proof.
  revert p st; induction fuel as [|fuel IH]; intros p st Hf; [lia|].
  cbn [crawl].
  destruct (page_step W default_max_pages p) as [links| |] eqn:E;
    [|now eexists|now eexists].
  destruct (_ && _); [now eexists|].
  apply page_step_yield in E. destruct E as [Hp _].
  apply IH. lia.
Qed.

(** [main] always ends: with the file written or with the exception of
    a listing page. *)
Lemma main_total (now : str) : exists r, main lower W now = Some r.
Proof.
  unfold main.
  destruct (crawl_total (S default_max_pages) 1 ([], [])) as [r ->];
    [unfold default_max_pages; lia|].
  destruct r; now eexists.
Qed.

Lemma main_clubs (now : str) (payload : Payload) :
  main lower W now = Some (Some payload) ->
  exists st, crawl lower (S default_max_pages) W 1 ([], []) = Some (Finished st)
             /\ clubs payload = sort_by key_ltb (snd st).
Proof.
  unfold main. destruct (crawl _ _ _ _ _) as [[st|]|]; try discriminate.
  intros [= <-]. now exists st.
Qed.

Lemma visit_labelled (st : state) (url : str) :
  labelled st -> labelled (visit lower W st url).
Proof.
  unfold labelled, visit. cbn [snd]. intros H.
  destruct (add_detail_cases url (parse_detail lower W url) (snd st))
    as [[_ ->]|[_ ->]]; [exact H|].
  apply Forall_app. split; [exact H|]. constructor; [|constructor].
  apply parse_detail_category.
Qed.

Lemma visit_clean (st : state) (url : str) :
  clean st -> clean (visit lower W st url).
Proof.
  unfold clean, visit. cbn [snd]. intros H.
  destruct (add_detail_cases url (parse_detail lower W url) (snd st))
    as [[_ ->]|[Hn ->]]; [exact H|].
  apply Forall_app. split; [exact H|]. constructor; [|constructor].
  cbn [c_name c_description]. unfold stripped.
  split; [apply strip_idempotent|]. split; [apply strip_idempotent|].
  intros E. rewrite E in Hn. discriminate.
Qed.

Lemma nonempty_iff {A : Type} (s : list A) : nonempty s = true <-> s <> [].
Proof. destruct s; simpl; split; congruence. Qed.

Lemma visit_named (st : state) (url : str) :
  named lower W st -> named lower W (visit lower W st url).
Proof.
  unfold named, visit. cbn [fst snd]. intros H u.
  rewrite set_add_In.
  destruct (add_detail_cases url (parse_detail lower W url) (snd st))
    as [[Hn ->]|[Hn ->]]; rewrite parse_detail_name_strip in Hn.
  - rewrite H. split; [tauto|]. intros [[->|Hu] Hd]; [|tauto].
    apply nonempty_iff in Hd. congruence.
  - rewrite map_app, in_app_iff, H. cbn [List.map c_url In].
    apply nonempty_iff in Hn. split.
    + intros [[Hu Hd]|[<-|[]]]; tauto.
    + intros [[->|Hu] Hd]; tauto.
Qed.

End Orchestrator.

Lemma sort_by_Forall {A : Type} (lt : A -> A -> bool) (P : A -> Prop)
      (l : list A) :
  Forall P l -> Forall P (sort_by lt l).
Proof.
  rewrite !Forall_forall. intros H x Hx. apply H. now apply sort_by_In in Hx.
Qed.

Lemma main_invariant (lower : str -> str) (W : World) (I : state -> Prop)
      (now : str) (payload : Payload) :
  (forall st url, I st -> I (visit lower W st url)) ->
  I ([], []) ->
  main lower W now = Some (Some payload) ->
  exists st, I st /\ clubs payload = sort_by key_ltb (snd st).
Proof.
  intros Hv H0 Hm. destruct (main_clubs _ _ _ _ Hm) as [st [Hc E]].
  exists st. split; [|exact E].
  eapply crawl_invariant; [exact Hv|exact H0|exact Hc].
Qed.

(** C4.  When the fetch or the parse of a detail page fails, [parse_detail]
    returns the record with empty name, empty description and category
    "Other"; [main] marks the URL as seen, appends nothing, and goes on
    with the next URL. *)
Theorem detail_failure_discarded (lower : str -> str) (W : World) (url : str) :
  get_soup W url = None ->
  parse_detail lower W url
  = {| d_name := []; d_description := []; d_category := lit "Other" |}
  /\ (forall st, snd (visit lower W st url) = snd st)
  /\ (forall st rest,
         visit_all lower W (url :: rest) st
         = visit_all lower W rest (set_add url (fst st), snd st)).
Proof.
  intros E. pose proof (parse_detail_failure lower W url E) as P.
  assert (V : forall st,
             visit lower W st url = (set_add url (fst st), snd st)).
  { intros st. unfold visit. now rewrite P. }
  split; [exact P|]. split.
  - intros st. now rewrite V.
  - intros st rest. unfold visit_all. cbn [fold_left]. now rewrite V.
Qed.

Lemma detail_failure_discarded_witness :
  parse_detail ascii_lower small_site (lit "https://amsclubs.ca/clubs/ski")
  = {| d_name := []; d_description := []; d_category := lit "Other" |}
  /\ (forall st,
         snd (visit ascii_lower small_site st
                (lit "https://amsclubs.ca/clubs/ski")) = snd st)
  /\ (forall st rest,
         visit_all ascii_lower small_site
           (lit "https://amsclubs.ca/clubs/ski" :: rest) st
         = visit_all ascii_lower small_site rest
             (set_add (lit "https://amsclubs.ca/clubs/ski") (fst st), snd st)).
Proof.
  apply (detail_failure_discarded ascii_lower small_site
           (lit "https://amsclubs.ca/clubs/ski")).
  reflexivity.
Defined.

(** C7.  The output has a record for a URL if and only if [main] has
    visited the URL and the name extracted from its detail page is not
    empty; a URL whose extracted name is empty leaves the list of records
    as it was, and one whose name is not empty appends one record. *)
Theorem club_present_iff (lower : str -> str) (W : World) :
  (forall now payload,
      main lower W now = Some (Some payload) ->
      exists seen recorded,
        crawl lower (S default_max_pages) W 1 ([], [])
        = Some (Finished (seen, recorded))
        /\ Permutation (clubs payload) recorded
        /\ forall u, In u (List.map c_url (clubs payload)) <->
                     In u seen /\ d_name (parse_detail lower W u) <> [])
  /\ (forall st url, d_name (parse_detail lower W url) = [] ->
                     snd (visit lower W st url) = snd st)
  /\ (forall st url, d_name (parse_detail lower W url) <> [] ->
                     exists c, snd (visit lower W st url) = snd st ++ [c]
                               /\ c_url c = url).
Proof.
  split; [|split].
  - intros now payload Hm.
    destruct (main_clubs _ _ _ _ Hm) as [[seen recorded] [Hc E]].
    exists seen, recorded. split; [exact Hc|].
    cbn [snd] in E. split; [rewrite E; apply sort_by_perm|].
    assert (N : named lower W (seen, recorded)).
    { eapply crawl_invariant; [apply visit_named| |exact Hc].
      intros u. simpl. tauto. }
    intros u. rewrite <- (N u). cbn [snd]. rewrite E, !in_map_iff.
    split; intros [c [Eu Hin]]; exists c; (split; [exact Eu|]).
    + exact (proj1 (sort_by_In _ _ _) Hin).
    + exact (proj2 (sort_by_In _ _ _) Hin).
  - intros st url E. unfold visit. cbn [snd].
    destruct (add_detail_cases url (parse_detail lower W url) (snd st))
      as [[_ ->]|[Hn _]]; [reflexivity|].
    rewrite parse_detail_name_strip, E in Hn. discriminate.
  - intros st url E. unfold visit. cbn [snd].
    destruct (add_detail_cases url (parse_detail lower W url) (snd st))
      as [[Hn _]|[_ ->]].
    + rewrite parse_detail_name_strip in Hn. apply nonempty_iff in E.
      congruence.
    + eexists. split; reflexivity.
Qed.

Lemma club_present_iff_witness :
  snd (visit ascii_lower small_site ([], [])
         (lit "https://amsclubs.ca/clubs/ski")) = [].
Proof.
  apply (proj1 (proj2 (club_present_iff ascii_lower small_site))
           ([], []) (lit "https://amsclubs.ca/clubs/ski")).
  reflexivity.
Defined.

(** C10.  Every record appended by [main] has its name and description
    stripped of white space at both ends: both values are stripped before
    the record is built.  A detail whose name is empty or made of white
    space only appends nothing. *)
Theorem appended_fields_stripped :
  (forall url detail clubs0,
      add_detail url detail clubs0 = clubs0
      \/ exists c, add_detail url detail clubs0 = clubs0 ++ [c]
                   /\ c_name c = strip (d_name detail)
                   /\ c_description c = strip (d_description detail)
                   /\ stripped (c_name c) /\ stripped (c_description c))
  /\ (forall url detail clubs0,
         forallb isspace (d_name detail) = true ->
         add_detail url detail clubs0 = clubs0)
  /\ (forall lower W now payload,
         main lower W now = Some (Some payload) ->
         Forall (fun c => stripped (c_name c) /\ stripped (c_description c)
                          /\ c_name c <> []) (clubs payload)).
Proof.
  split; [|split].
  - intros url detail clubs0.
    destruct (add_detail_cases url detail clubs0) as [[_ E]|[_ E]];
      [now left|right].
    eexists. split; [exact E|]. cbn [c_name c_description].
    repeat split; apply strip_idempotent.
  - intros url detail clubs0 H. unfold add_detail.
    now rewrite (strip_all_space _ H).
  - intros lower W now payload Hm.
    destruct (main_invariant lower W clean now payload) as [st [Hst ->]];
      [apply visit_clean|constructor|exact Hm|].
    now apply sort_by_Forall.
Qed.

Lemma appended_fields_stripped_witness :
  add_detail chess_url
    {| d_name := lit "  "; d_description := lit "We play chess.";
       d_category := lit "Other" |} [] = [].
Proof.
  apply (proj1 (proj2 appended_fields_stripped)). reflexivity.
Defined.

(** C2.  In the output of [main] the records are sorted by the pair
    (category rank, name): the rank, which is the index of the category
    in [CATEGORIES], does not decrease along the list, and of two records
    of one category the first has the smaller or equal name in the
    lexicographic order of code points. *)
Theorem output_sorted (lower : str -> str) (W : World) (now : str)
        (payload : Payload) :
  main lower W now = Some (Some payload) ->
  StronglySorted club_le (clubs payload)
  /\ Forall (fun c => nth_error CATEGORIES (rank (c_category c))
                      = Some (c_category c)) (clubs payload).
Proof.
  intros Hm.
  destruct (main_invariant lower W labelled now payload) as [st [Hst ->]];
    [apply visit_labelled|constructor|exact Hm|].
  split; [apply sort_clubs_sorted|].
  apply sort_by_Forall. eapply Forall_impl; [|exact Hst].
  intros c. apply rank_is_index.
Qed.

Lemma output_sorted_witness :
  exists payload,
    main ascii_lower small_site (lit "2026-01-01T00:00:00") = Some (Some payload)
    /\ StronglySorted club_le (clubs payload).
Proof.
  eexists. split; [vm_compute; reflexivity|].
  apply (output_sorted ascii_lower small_site (lit "2026-01-01T00:00:00")).
  vm_compute. reflexivity.
Defined.

(** * Further properties of the link extractor *)

Lemma str_ltb_total (a b : str) :
  str_ltb a b = false -> str_ltb b a = false -> a = b.
Proof.
  revert b; induction a as [|x a IH]; intros [|y b]; simpl;
    try congruence.
  destruct (N.ltb_spec x y) as [L1|L1]; [discriminate|].
  destruct (N.ltb_spec y x) as [L2|L2]; [intros _; discriminate|].
  assert (x = y) by lia. subst y. rewrite N.eqb_refl.
  intros H1 H2. f_equal. now apply IH.
Qed.

Lemma set_add_NoDup (x : str) (s : list str) :
  NoDup s -> NoDup (set_add x s).
Proof.
  intros H. unfold set_add. destruct (mem x s) eqn:E; [exact H|].
  apply mem_not_In in E. apply NoDup_app; [exact H|repeat constructor; auto|].
  intros u Hu [<-|[]]. contradiction.
Qed.

Lemma fold_collect_NoDup (l : list element) (acc : list str) :
  NoDup acc -> NoDup (fold_left collect_link l acc).
Proof.
  revert acc; induction l as [|a l IH]; intros acc H; simpl; [exact H|].
  apply IH. rewrite collect_link_kept.
  destruct (kept_link a); [now apply set_add_NoDup|exact H].
Qed.

Lemma find_club_links_NoDup (page : soup) : NoDup (find_club_links page).
Proof.
  unfold find_club_links.
  eapply Permutation_NoDup; [apply Permutation_sym, sort_by_perm|].
  apply fold_collect_NoDup. constructor.
Qed.

Lemma sorted_NoDup_strict (l : list str) :
  StronglySorted (fun a b => str_ltb b a = false) l -> NoDup l ->
  StronglySorted (fun a b => str_ltb a b = true) l.
Proof.
  induction 1 as [|a l Hs IH Hf]; intros Hn; constructor.
  - apply IH. now inversion Hn.
  - inversion Hn as [|a' l' Ha Hl]; subst.
    rewrite Forall_forall in *. intros b Hb.
    destruct (str_ltb a b) eqn:E; [reflexivity|].
    exfalso. apply Ha.
    rewrite (str_ltb_total a b E (Hf b Hb)). exact Hb.
Qed.

(** A strictly increasing list is determined by its elements. *)
Lemma strict_sorted_unique (l1 l2 : list str) :
  StronglySorted (fun a b => str_ltb a b = true) l1 ->
  StronglySorted (fun a b => str_ltb a b = true) l2 ->
  (forall x, In x l1 <-> In x l2) -> l1 = l2.
Proof.
  intros H1; revert l2; induction H1 as [|a l1 Hs1 IH Hf1];
    intros l2 H2 Hin.
  - destruct l2 as [|b l2]; [reflexivity|].
    exfalso. apply (proj2 (Hin b)). now left.
  - destruct H2 as [|b l2 Hs2 Hf2].
    + exfalso. apply (proj1 (Hin a)). now left.
    + rewrite Forall_forall in Hf1, Hf2.
      assert (E : a = b).
      { destruct (proj1 (Hin a) (or_introl eq_refl)) as [Eb|Ha]; [congruence|].
        destruct (proj2 (Hin b) (or_introl eq_refl)) as [Ea|Hb]; [congruence|].
        pose proof (Hf1 b Hb) as L1. pose proof (Hf2 a Ha) as L2.
        apply str_ltb_asym in L1. congruence. }
      subst b. f_equal. apply IH; [exact Hs2|].
      intros x. split; intros Hx.
      * destruct (proj1 (Hin x) (or_intror Hx)) as [<-|Hx2]; [|exact Hx2].
        pose proof (Hf1 a Hx) as L. rewrite str_ltb_irrefl in L. discriminate.
      * destruct (proj2 (Hin x) (or_intror Hx)) as [<-|Hx1]; [|exact Hx1].
        pose proof (Hf2 a Hx) as L. rewrite str_ltb_irrefl in L. discriminate.
Qed.

Lemma find_club_links_sorted (page : soup) :
  StronglySorted (fun a b => str_ltb b a = false) (find_club_links page).
Proof.
  unfold find_club_links.
  apply sort_by_strongly_sorted; [apply str_ltb_asym|].
  intros x y z. apply str_leb_trans.
Qed.

Lemma links_increasing (page : soup) :
  StronglySorted (fun a b => str_ltb a b = true) (find_club_links page).
Proof.
  apply sorted_NoDup_strict;
    [apply find_club_links_sorted|apply find_club_links_NoDup].
Qed.

(** X1.  The links returned for a listing page are in strictly increasing
    order of code points: sorted, and no link twice. *)
Theorem find_club_links_strictly_sorted (page : soup) :
  StronglySorted (fun a b => str_ltb a b = true) (find_club_links page)
  /\ NoDup (find_club_links page).
Proof.
  split; [apply links_increasing|apply find_club_links_NoDup].
Qed.

Lemma anchors_In (page : soup) (a : element) :
  In a (anchors page) <->
  In a page /\ tag a = lit "a"
  /\ exists h, attr (lit "href") (attrs a) = Some h.
Proof.
  unfold anchors. rewrite filter_In, andb_true_iff, str_eqb_eq.
  destruct (attr (lit "href") (attrs a)) as [h|]; split.
  - intros [H1 [H2 _]]. repeat split; trivial. now exists h.
  - tauto.
  - intros [_ [_ H]]. discriminate.
  - intros [_ [_ [h H]]]. discriminate.
Qed.

(** X2.  The result depends only on which elements the page has, not on
    their order nor on how often one is repeated. *)
Theorem find_club_links_order_free (page page' : soup) :
  (forall a, In a page <-> In a page') ->
  find_club_links page = find_club_links page'.
Proof.
  intros H. apply strict_sorted_unique; try apply links_increasing.
  intros u. rewrite !find_club_links_In.
  split; intros [a [Ha E]]; exists a; (split; [|exact E]);
    apply anchors_In; apply anchors_In in Ha; rewrite H in *; exact Ha.
Qed.

Lemma find_club_links_order_free_witness :
  find_club_links [anchor (lit "/clubs/ski") (lit "Ski Discover");
                   anchor (lit "/clubs/chess") (lit "Chess Discover")]
  = find_club_links [anchor (lit "/clubs/chess") (lit "Chess Discover");
                     anchor (lit "/clubs/ski") (lit "Ski Discover");
                     anchor (lit "/clubs/chess") (lit "Chess Discover")].
Proof.
  apply find_club_links_order_free. intros a. simpl. tauto.
Defined.

(** X3.  Every link of a listing page starts with the site base string,
    so it is absolute, and it has no ["#"]. *)
Theorem find_club_links_base_prefix (page : soup) (u : str) :
  In u (find_club_links page) ->
  (exists rest, u = BASE ++ rest) /\ absolute u = true /\ ~ In hash u.
Proof.
  intros H. destruct (find_club_links_prefix page u H) as [Hb [Ha Hf]].
  split; [now apply startswith_iff|]. split; assumption.
Qed.

Lemma find_club_links_base_prefix_witness :
  (exists rest, lit "https://amsclubs.ca/clubs/ski" = BASE ++ rest)
  /\ absolute (lit "https://amsclubs.ca/clubs/ski") = true
  /\ ~ In hash (lit "https://amsclubs.ca/clubs/ski").
Proof.
  apply (find_club_links_base_prefix
           [anchor (lit "/clubs/ski#top") (lit "Ski Discover")]).
  vm_compute. tauto.
Defined.

Lemma before_hash_app_hash (h f : str) :
  before_hash (h ++ hash :: f) = before_hash h.
Proof.
  induction h as [|c h IH]; simpl; [reflexivity|].
  destruct (char_eqb c hash); [reflexivity|now rewrite IH].
Qed.

Lemma startswith_app_hash (h f k : str) :
  ~ In hash k -> startswith (h ++ hash :: f) k = startswith h k.
Proof.
  revert h; induction k as [|x k IH]; intros h Hk.
  - now destruct h.
  - destruct h as [|y h]; simpl.
    + unfold char_eqb. destruct (N.eqb_spec x hash) as [E|N]; [|reflexivity].
      exfalso. apply Hk. now left.
    + rewrite IH; [reflexivity|]. simpl in Hk. tauto.
Qed.

(** X4.  The fragment of an href plays no part: an anchor with the href
    [h#f] gives the link that the same anchor with the href [h] gives, so
    two cards that differ by their fragment give one link. *)
Theorem fragment_ignored (a a' : element) (h f : str) :
  strings a' = strings a ->
  attr (lit "href") (attrs a) = Some h ->
  attr (lit "href") (attrs a') = Some (h ++ hash :: f) ->
  forall hrefs, collect_link hrefs a' = collect_link hrefs a.
Proof.
  intros Es Eh Eh' hrefs. unfold collect_link, get_text.
  rewrite Es, Eh, Eh'. destruct (str_in _ _); [|reflexivity].
  rewrite (startswith_app_hash h f (lit "/"))
    by (apply not_In_by_eval; reflexivity).
  destruct (startswith h (lit "/")); cbv zeta.
  - rewrite !startswith_app, app_assoc, before_hash_app_hash. reflexivity.
  - rewrite (startswith_app_hash h f BASE) by apply BASE_no_hash.
    destruct (startswith h BASE); [|reflexivity].
    now rewrite before_hash_app_hash.
Qed.

Lemma fragment_ignored_witness :
  collect_link [] (anchor (lit "/clubs/ski#top") (lit "Ski Discover"))
  = collect_link [] (anchor (lit "/clubs/ski") (lit "Ski Discover")).
Proof.
  apply (fragment_ignored (anchor (lit "/clubs/ski") (lit "Ski Discover"))
           (anchor (lit "/clubs/ski#top") (lit "Ski Discover"))
           (lit "/clubs/ski") (lit "top")); reflexivity.
Defined.

(** X5.  The list of links is empty exactly when the page has no card: no
    anchor with an href whose text contains "Discover" and whose href
    starts with ["/"] or with the site base. *)
Theorem find_club_links_empty (page : soup) :
  find_club_links page = [] <->
  forall a h, In a page -> tag a = lit "a" ->
              attr (lit "href") (attrs a) = Some h ->
              str_in (lit "Discover") (get_text (lit " ") a) = true ->
              startswith h (lit "/") = false /\ startswith h BASE = false.
Proof.
  split.
  - intros E a h Ha Ht Eh D.
    destruct (kept_link a) as [u|] eqn:K.
    + exfalso. assert (Hu : In u (find_club_links page)).
      { apply find_club_links_In. exists a. split; [|exact K].
        apply anchors_In. repeat split; trivial. now exists h. }
      rewrite E in Hu. exact Hu.
    + unfold kept_link in K. rewrite D, Eh in K.
      destruct (startswith h (lit "/")); [discriminate|].
      destruct (startswith h BASE); [discriminate|]. now split.
  - intros H. destruct (find_club_links page) as [|u l] eqn:E; [reflexivity|].
    exfalso. assert (Hu : In u (find_club_links page)) by (rewrite E; now left).
    apply find_club_links_In in Hu. destruct Hu as [a [Ha K]].
    apply anchors_In in Ha. destruct Ha as [Hp [Ht [h Eh]]].
    unfold kept_link in K.
    destruct (str_in _ _) eqn:D; [|discriminate]. rewrite Eh in K.
    destruct (H a h Hp Ht Eh D) as [S1 S2]. rewrite S1, S2 in K. discriminate.
Qed.

Lemma find_club_links_empty_witness :
  find_club_links [anchor (lit "clubs/chess") (lit "Chess Discover");
                   anchor (lit "/about") (lit "About us")] = [].
Proof.
  apply find_club_links_empty. intros a h Ha Ht Eh D.
  destruct Ha as [<-|[<-|[]]].
  - injection Eh as <-. split; reflexivity.
  - vm_compute in D. discriminate D.
Defined.

(** * Further properties of the walker and of [main] *)

Lemma page_step_raise (W : World) (max_pages p : nat) :
  page_step W max_pages p = Raise ->
  p <= max_pages
  /\ (http_get W (page_url p) = ConnectionError
      \/ exists code page, http_get W (page_url p) = Response code page
                           /\ 400 <= code < 600 /\ code <> 404).
Proof.
  unfold page_step. destruct (Nat.ltb_spec max_pages p) as [L|L];
    [discriminate|].
  intros R0. split; [exact L|].
  destruct (http_get W (page_url p)) as [|code page]; [now left|right].
  destruct (Nat.eqb_spec code 404); [discriminate|].
  destruct (Nat.leb 400 code && Nat.ltb code 600) eqn:R.
  - apply andb_true_iff in R. destruct R as [R1 R2].
    apply Nat.leb_le in R1. apply Nat.ltb_lt in R2.
    exists code, page. auto.
  - destruct (find_club_links page); discriminate.
Qed.

Lemma crawl_aborted (lower : str -> str) (W : World) (fuel p : nat)
      (st : state) :
  crawl lower fuel W p st = Some Aborted ->
  exists q, p <= q /\ page_step W default_max_pages q = Raise.
Proof.
  revert p st; induction fuel as [|fuel IH]; intros p st; simpl;
    [discriminate|].
  destruct (page_step W default_max_pages p) as [links| |] eqn:E;
    [|discriminate|intros _; now exists p].
  destruct (_ && _); [discriminate|].
  intros H. destruct (IH _ _ H) as [q [Hq R]]. exists q. split; [lia|exact R].
Qed.

Lemma visit_all_fst (lower : str -> str) (W : World) (urls : list str)
      (st : state) :
  fst (visit_all lower W urls st)
  = fold_left (fun s u => set_add u s) urls (fst st).
Proof.
  unfold visit_all. revert st.
  induction urls as [|u urls IH]; intros st; [reflexivity|].
  cbn [fold_left]. now rewrite IH.
Qed.

Lemma crawl_traversal (lower lower' : str -> str) (W W' : World)
      (fuel p : nat) (st st' : state) :
  (forall url, http_get W url = http_get W' url) ->
  fst st = fst st' ->
  match crawl lower fuel W p st, crawl lower' fuel W' p st' with
  | Some (Finished s), Some (Finished s') => fst s = fst s'
  | Some Aborted, Some Aborted => True
  | None, None => True
  | _, _ => False
  end.
Proof.
  intros Hg. revert p st st'.
  induction fuel as [|fuel IH]; intros p st st' Hs; [exact I|].
  cbn [crawl].
  assert (Ep : page_step W default_max_pages p
               = page_step W' default_max_pages p).
  { unfold page_step. now rewrite Hg. }
  rewrite <- Ep, <- Hs.
  destruct (page_step W default_max_pages p) as [links| |];
    [|exact Hs|exact I].
  destruct (_ && _); [exact Hs|].
  apply IH. now rewrite !visit_all_fst, Hs.
Qed.

(** X6.  Which URLs [main] visits, and whether an error of a listing page
    ends the run, do not depend on the detail pages: two sites that answer
    the listing requests alike give the same ending and the same set of
    seen URLs, whatever their detail pages answer or fail with. *)
Theorem crawl_ignores_detail_pages (lower lower' : str -> str)
        (W W' : World) :
  (forall url, http_get W url = http_get W' url) ->
  (crawl lower (S default_max_pages) W 1 ([], []) = Some Aborted
   <-> crawl lower' (S default_max_pages) W' 1 ([], []) = Some Aborted)
  /\ (forall seen recorded,
         crawl lower (S default_max_pages) W 1 ([], [])
         = Some (Finished (seen, recorded)) ->
         exists recorded',
           crawl lower' (S default_max_pages) W' 1 ([], [])
           = Some (Finished (seen, recorded'))).
Proof.
  intros Hg.
  pose proof (crawl_traversal lower lower' W W' (S default_max_pages) 1
                ([], []) ([], []) Hg eq_refl) as T.
  destruct (crawl lower (S default_max_pages) W 1 ([], []))
    as [[[s r]|]|];
    destruct (crawl lower' (S default_max_pages) W' 1 ([], []))
      as [[[s' r']|]|]; try contradiction; split;
    try (split; discriminate); try (split; reflexivity);
    try (intros seen recorded; discriminate).
  intros seen recorded [= <- <-]. cbn [fst] in T. subst s'. now exists r'.
Qed.

Lemma crawl_ignores_detail_pages_witness :
  exists seen recorded recorded',
    crawl ascii_lower (S default_max_pages) small_site 1 ([], [])
    = Some (Finished (seen, recorded))
    /\ crawl ascii_lower (S default_max_pages) small_site_no_details 1 ([], [])
       = Some (Finished (seen, recorded')).
Proof.
  destruct (proj2 (crawl_ignores_detail_pages ascii_lower ascii_lower
                     small_site small_site_no_details
                     (fun url => eq_refl))
              [chess_url; lit "https://amsclubs.ca/clubs/ski"]
              [ {| c_name := lit "Chess Club"; c_category := lit "Other";
                   c_description := lit "We play chess.";
                   c_url := chess_url |} ])
    as [recorded' E].
  - vm_compute. reflexivity.
  - eexists. eexists. exists recorded'. split; [vm_compute; reflexivity|].
    exact E.
Defined.

Lemma page_step_ext (W W' : World) (max_pages p : nat) :
  http_get W (page_url p) = http_get W' (page_url p) ->
  page_step W max_pages p = page_step W' max_pages p.
Proof. intros E. unfold page_step. now rewrite E. Qed.

Lemma iterate_from_agree (W W' : World) (max_pages k fuel p : nat) :
  (forall q, p <= q <= k ->
             http_get W (page_url q) = http_get W' (page_url q)) ->
  (forall links, page_step W max_pages k <> Yield links) ->
  p <= k ->
  iterate_from fuel W max_pages p = iterate_from fuel W' max_pages p.
Proof.
  revert p; induction fuel as [|fuel IH]; intros p Ha Hk Hp; [reflexivity|].
  cbn [iterate_from].
  rewrite <- (page_step_ext W W' max_pages p) by (apply Ha; lia).
  destruct (page_step W max_pages p) as [links| |] eqn:E; try reflexivity.
  assert (p <> k) by (intros ->; exact (Hk links E)).
  rewrite (IH (S p)); [reflexivity| |exact Hk|lia].
  intros q Hq. apply Ha. lia.
Qed.

(** X7.  The walker fetches no page after the one that stops it: when
    page [k] gives no links to yield (it is past the cap, not found, empty
    or in error), the whole walk is the same on any two sites whose
    listing pages 1 to [k] are the same. *)
Theorem iterate_pages_stops_fetching (W W' : World) (max_pages k : nat) :
  1 <= k ->
  (forall q, 1 <= q <= k ->
             http_get W (page_url q) = http_get W' (page_url q)) ->
  (forall links, page_step W max_pages k <> Yield links) ->
  iterate_pages W max_pages = iterate_pages W' max_pages.
Proof.
  intros Hk Ha Hs. unfold iterate_pages.
  now apply (iterate_from_agree W W' max_pages k).
Qed.

Lemma iterate_pages_stops_fetching_witness :
  iterate_pages small_site 50 = iterate_pages small_site_broken_later 50.
Proof.
  apply (iterate_pages_stops_fetching small_site small_site_broken_later 50 2).
  - lia.
  - intros q Hq. assert (E : q = 1 \/ q = 2) by lia.
    destruct E as [-> | ->]; vm_compute; reflexivity.
  - intros links. vm_compute. discriminate.
Defined.

(** ** Distinct URLs *)

Lemma add_detail_urls (url : str) (detail : Detail) (recorded : list Club) :
  List.map c_url (add_detail url detail recorded) = List.map c_url recorded
  \/ List.map c_url (add_detail url detail recorded)
     = List.map c_url recorded ++ [url].
Proof.
  destruct (add_detail_cases url detail recorded) as [[_ ->]|[_ ->]];
    [now left|right]. now rewrite map_app.
Qed.

Lemma visit_all_unique (lower : str -> str) (W : World) (urls : list str)
      (st : state) :
  NoDup urls -> (forall u, In u urls -> ~ In u (fst st)) ->
  unique_urls st -> unique_urls (visit_all lower W urls st).
Proof.
  unfold visit_all. revert st.
  induction urls as [|u urls IH]; intros st Hn Hs Hu; [exact Hu|].
  cbn [fold_left]. inversion Hn as [|u' urls' Hnu Hn']; subst.
  apply IH; [exact Hn'| |].
  - intros v Hv. unfold visit. cbn [fst]. rewrite set_add_In.
    intros [->|Hv']; [contradiction|]. apply (Hs v); [now right|exact Hv'].
  - destruct Hu as [Hd Hi]. unfold unique_urls, visit. cbn [fst snd].
    destruct (add_detail_urls u (parse_detail lower W u) (snd st))
      as [-> | ->].
    + split; [exact Hd|]. intros v Hv. apply set_add_In. right. now apply Hi.
    + split.
      * apply NoDup_app; [exact Hd|repeat constructor; auto|].
        intros v Hv [E|[]]. subst v. apply (Hs u); [now left|now apply Hi].
      * intros v Hv. apply set_add_In. apply in_app_iff in Hv.
        destruct Hv as [Hv|[<-|[]]]; [right; now apply Hi|now left].
Qed.

Lemma crawl_unique (lower : str -> str) (W : World) (fuel p : nat)
      (st st' : state) :
  unique_urls st -> crawl lower fuel W p st = Some (Finished st') ->
  unique_urls st'.
Proof.
  revert p st; induction fuel as [|fuel IH]; intros p st Hu; simpl;
    [discriminate|].
  destruct (page_step W default_max_pages p) as [links| |] eqn:E;
    [|intros [= <-]; exact Hu|discriminate].
  destruct (_ && _); [intros [= <-]; exact Hu|].
  apply IH. apply visit_all_unique; [| |exact Hu].
  - apply NoDup_filter.
    apply page_step_yield in E.
    destruct E as [_ [_ [code [page [_ [_ <-]]]]]].
    apply find_club_links_NoDup.
  - intros u Hin. apply filter_In in Hin. destruct Hin as [_ Hm].
    apply negb_true_iff in Hm. now apply mem_not_In.
Qed.

(** X8.  No two records of the output have the same URL. *)
Theorem output_urls_unique (lower : str -> str) (W : World) (now : str)
        (payload : Payload) :
  main lower W now = Some (Some payload) ->
  NoDup (List.map c_url (clubs payload)).
Proof.
  intros Hm. destruct (main_clubs _ _ _ _ Hm) as [st [Hc ->]].
  assert (U : unique_urls st).
  { eapply crawl_unique; [|exact Hc]. split; [constructor|]. intros u []. }
  eapply Permutation_NoDup; [|exact (proj1 U)].
  apply Permutation_map, Permutation_sym, sort_by_perm.
Qed.

Lemma output_urls_unique_witness :
  exists payload,
    main ascii_lower small_site (lit "2026-01-01T00:00:00") = Some (Some payload)
    /\ NoDup (List.map c_url (clubs payload)).
Proof.
  eexists. split; [vm_compute; reflexivity|].
  apply (output_urls_unique ascii_lower small_site (lit "2026-01-01T00:00:00")).
  vm_compute. reflexivity.
Defined.

(** * Further properties of the detail extractors *)

Lemma join_nonempty (sep : str) (parts : list str) :
  Forall (fun p => nonempty p = true) parts ->
  nonempty parts = true -> nonempty (join sep parts) = true.
Proof.
  intros H. destruct H as [|p parts Hn _]; [discriminate|]. intros _.
  destruct p as [|c p]; [discriminate|]. now destruct parts.
Qed.

Lemma join_head (sep : str) (parts : list str) :
  Forall (fun p => nonempty p = true /\ isspace (hd 0%N p) = false) parts ->
  isspace (hd 0%N (join sep parts)) = false.
Proof.
  intros H. destruct H as [|p parts [Hn Hh] _]; [reflexivity|].
  destruct p as [|c p]; [discriminate|].
  destruct parts; exact Hh.
Qed.

Lemma join_last (sep : str) (parts : list str) :
  Forall (fun p => nonempty p = true /\ isspace (last p 0%N) = false) parts ->
  isspace (last (join sep parts) 0%N) = false.
Proof.
  induction 1 as [|p parts [Hn Hl] Hf IH]; [reflexivity|].
  destruct parts as [|q parts]; [exact Hl|].
  change (join sep (p :: q :: parts))
    with (p ++ sep ++ join sep (q :: parts)).
  rewrite app_assoc, last_app_nonempty; [exact IH|].
  apply join_nonempty; [|reflexivity].
  eapply Forall_impl; [|exact Hf]. now intros a [Ha _].
Qed.

(** The text of an element has no white space at either end, whatever the
    separator. *)
Lemma get_text_stripped (sep : str) (el : element) :
  stripped (get_text sep el).
Proof.
  unfold stripped, get_text. apply strip_id.
  - apply join_head. eapply Forall_impl; [|apply text_parts_ok].
    simpl; tauto.
  - apply join_last. eapply Forall_impl; [|apply text_parts_ok].
    simpl; tauto.
Qed.

Lemma match_dash_suffix_space (c : char) (s : str) :
  isspace c = true -> match_dash_suffix (c :: s) = match_dash_suffix s.
Proof. intros H. unfold match_dash_suffix. simpl. now rewrite H. Qed.

Lemma match_dash_suffix_rest (s rest : str) :
  match_dash_suffix s = Some rest ->
  rest = [] \/ (rest = [newline] /\ last s 0%N = newline).
Proof.
  unfold match_dash_suffix. destruct (lstrip_split s) as [ws [_ E]].
  destruct (lstrip s) as [|c s'] eqn:L; [discriminate|].
  destruct (char_eqb c en_dash); [|discriminate].
  intros D. destruct (dot_star_end_rest _ _ D) as [->|[-> Hl]]; [now left|].
  right. split; [reflexivity|]. rewrite E.
  rewrite last_app_nonempty by reflexivity.
  destruct s' as [|y s']; [discriminate|exact Hl].
Qed.

Lemma strip_dash_suffix_last (t : str) :
  isspace (last t 0%N) = false ->
  isspace (last (strip_dash_suffix t) 0%N) = false.
Proof.
  induction t as [|c t IH]; intros Hl; [reflexivity|].
  cbn [strip_dash_suffix].
  destruct (match_dash_suffix (c :: t)) as [rest|] eqn:M.
  - destruct (match_dash_suffix_rest _ _ M) as [->|[-> Hn]]; [reflexivity|].
    rewrite Hn in Hl. discriminate.
  - destruct t as [|y t]; [exact Hl|].
    change (last (c :: y :: t) 0%N) with (last (y :: t) 0%N) in Hl.
    specialize (IH Hl).
    destruct (strip_dash_suffix (y :: t)) as [|z r] eqn:R; [|exact IH].
    simpl. destruct (isspace c) eqn:Hc; [|reflexivity].
    exfalso. rewrite (match_dash_suffix_space c _ Hc) in M.
    cbn [strip_dash_suffix] in R. rewrite M in R. discriminate.
Qed.

Lemma extract_name_last (page : soup) :
  isspace (last (extract_name_from_detail page) 0%N) = false.
Proof.
  unfold extract_name_from_detail.
  destruct (first_heading page _) as [name|] eqn:E.
  - clear -E. revert E.
    generalize [lit "h1"; lit "h2"; lit "h3"]. intros tags.
    induction tags as [|t tags IH]; simpl; [discriminate|].
    destruct (soup_find t page) as [h|]; [|exact IH].
    destruct (nonempty (get_text [] h)); [|exact IH].
    intros [= <-]. apply get_text_last.
  - destruct (soup_find _ page) as [title|]; [|reflexivity].
    apply strip_dash_suffix_last, get_text_last.
Qed.

Lemma name_strip_id (page : soup) :
  strip (extract_name_from_detail page) = extract_name_from_detail page.
Proof. apply strip_id; [apply extract_name_head|apply extract_name_last]. Qed.

(** X9.  The extracted name has no white space at either end, so the
    [strip] that [main] applies to it changes nothing. *)
Theorem extract_name_stripped (page : soup) :
  isspace (hd 0%N (extract_name_from_detail page)) = false
  /\ isspace (last (extract_name_from_detail page) 0%N) = false
  /\ strip (extract_name_from_detail page) = extract_name_from_detail page.
Proof.
  split; [apply extract_name_head|].
  split; [apply extract_name_last|apply name_strip_id].
Qed.

Lemma first_text_longer_spec (n : nat) (els : list element) (txt : str) :
  first_text_longer n els = Some txt ->
  exists p, In p els /\ txt = get_text (lit " ") p /\ n < List.length txt.
Proof.
  induction els as [|p els IH]; simpl; [discriminate|].
  destruct (nonempty (get_text (lit " ") p)
            && Nat.ltb n (List.length (get_text (lit " ") p))) eqn:E.
  - intros [= <-]. apply andb_true_iff in E. destruct E as [_ E].
    apply Nat.ltb_lt in E. exists p. auto.
  - intros H. destruct (IH H) as [q [Hq R]]. exists q. split; [now right|exact R].
Qed.

Lemma first_text_longer_none (n : nat) (els : list element) :
  first_text_longer n els = None ->
  forall p, In p els -> List.length (get_text (lit " ") p) <= n.
Proof.
  induction els as [|q els IH]; simpl; [tauto|].
  destruct (nonempty (get_text (lit " ") q)
            && Nat.ltb n (List.length (get_text (lit " ") q))) eqn:E;
    [discriminate|].
  intros H p [<-|Hp]; [|now apply IH].
  apply andb_false_iff in E. destruct E as [E|E].
  - destruct (get_text (lit " ") q); [simpl; lia|discriminate].
  - now apply Nat.ltb_ge in E.
Qed.

Lemma description_strip_id (page : soup) :
  strip (extract_description_from_detail page)
  = extract_description_from_detail page.
Proof.
  unfold extract_description_from_detail, meta_content.
  destruct (find_meta_description page) as [meta|].
  - destruct (attr _ (attrs meta)) as [c|].
    + destruct (nonempty c); [apply strip_idempotent|].
      repeat match goal with
             | |- context [first_text_longer ?n ?l] =>
                 let E := fresh "E" in
                 destruct (first_text_longer n l) eqn:E;
                 [apply first_text_longer_spec in E;
                  destruct E as [p [_ [-> _]]]; apply get_text_stripped|]
             end; reflexivity.
    + repeat match goal with
             | |- context [first_text_longer ?n ?l] =>
                 let E := fresh "E" in
                 destruct (first_text_longer n l) eqn:E;
                 [apply first_text_longer_spec in E;
                  destruct E as [p [_ [-> _]]]; apply get_text_stripped|]
             end; reflexivity.
  - repeat match goal with
           | |- context [first_text_longer ?n ?l] =>
               let E := fresh "E" in
               destruct (first_text_longer n l) eqn:E;
               [apply first_text_longer_spec in E;
                destruct E as [p [_ [-> _]]]; apply get_text_stripped|]
           end; reflexivity.
Qed.

(** X10.  The extracted description has no white space at either end.
    A meta description whose content is not empty always wins, stripped;
    without one, the description is the text of the first paragraph longer
    than 30 characters if there is one, and is otherwise empty or longer
    than 10 characters. *)
Theorem extract_description_shape (page : soup) :
  strip (extract_description_from_detail page)
  = extract_description_from_detail page
  /\ (forall meta c,
         find_meta_description page = Some meta ->
         attr (lit "content") (attrs meta) = Some c -> c <> [] ->
         extract_description_from_detail page = strip c)
  /\ (meta_content page = None ->
      (forall p, In p page -> tag p = lit "p" ->
                 30 < List.length (get_text (lit " ") p) ->
                 30 < List.length (extract_description_from_detail page))
      /\ (extract_description_from_detail page = []
          \/ 10 < List.length (extract_description_from_detail page))).
Proof.
  split; [apply description_strip_id|split].
  - intros meta c Em Ec Hc. unfold extract_description_from_detail,
      meta_content. rewrite Em, Ec. destruct c; [contradiction|reflexivity].
  - intros Em. unfold extract_description_from_detail. rewrite Em.
    destruct (first_text_longer 30 _) as [txt|] eqn:E30.
    + apply first_text_longer_spec in E30. destruct E30 as [q [_ [-> L]]].
      split; [intros; exact L|right; lia].
    + split.
      * intros p Hp Ht L.
        assert (Hin : In p (find_all [lit "p"] page)).
        { unfold find_all. apply filter_In. split; [exact Hp|].
          rewrite Ht. reflexivity. }
        pose proof (first_text_longer_none _ _ E30 p Hin). lia.
      * destruct (first_text_longer 10 _) as [txt|] eqn:E10; [|now left].
        apply first_text_longer_spec in E10.
        destruct E10 as [q [_ [-> L]]]. now right.
Qed.

Lemma extract_description_shape_witness :
  extract_description_from_detail chess_page = strip (lit "We play chess.").
Proof.
  apply (proj1 (proj2 (extract_description_shape chess_page))
           {| tag := lit "meta";
              attrs := [(lit "name", lit "description");
                        (lit "content", lit "We play chess.")];
              strings := [] |} (lit "We play chess.")).
  - reflexivity.
  - reflexivity.
  - discriminate.
Defined.

(** * The records of the output *)

Lemma visit_from_page (lower : str -> str) (W : World) (st : state)
      (url : str) :
  Forall (from_page lower W) (snd st) ->
  Forall (from_page lower W) (snd (visit lower W st url)).
Proof.
  unfold visit. cbn [snd]. intros H.
  destruct (add_detail_cases url (parse_detail lower W url) (snd st))
    as [[_ ->]|[Hn ->]]; [exact H|].
  apply Forall_app. split; [exact H|]. constructor; [|constructor].
  unfold from_page. cbn [c_url c_name c_description c_category].
  unfold parse_detail in *. destruct (get_soup W url) as [page|].
  - exists page. cbn [d_name d_description d_category].
    rewrite name_strip_id, description_strip_id. auto.
  - simpl in Hn. discriminate.
Qed.

(** X11.  Every record of the output comes from a detail page that was
    fetched: its name and description are the extracted ones, unchanged,
    its category is what the categorizer gives for the record's own name,
    description and URL. *)
Theorem output_records_from_pages (lower : str -> str) (W : World)
        (now : str) (payload : Payload) :
  main lower W now = Some (Some payload) ->
  forall c, In c (clubs payload) ->
    exists page,
      get_soup W (c_url c) = Some page
      /\ c_name c = extract_name_from_detail page
      /\ c_description c = extract_description_from_detail page
      /\ c_category c
         = guess_category lower (c_name c) (c_description c) (c_url c).
Proof.
  intros Hm c Hc.
  destruct (main_invariant lower W
              (fun st => Forall (from_page lower W) (snd st)) now payload)
    as [st [Hst E]];
    [apply visit_from_page|constructor|exact Hm|].
  rewrite E in Hc. apply sort_by_In in Hc.
  rewrite Forall_forall in Hst. exact (Hst c Hc).
Qed.

Lemma output_records_from_pages_witness :
  exists payload,
    main ascii_lower small_site (lit "2026-01-01T00:00:00") = Some (Some payload)
    /\ forall c, In c (clubs payload) ->
         exists page,
           get_soup small_site (c_url c) = Some page
           /\ c_name c = extract_name_from_detail page
           /\ c_description c = extract_description_from_detail page
           /\ c_category c
              = guess_category ascii_lower (c_name c) (c_description c)
                  (c_url c).
Proof.
  eexists. split; [vm_compute; reflexivity|].
  apply (output_records_from_pages ascii_lower small_site
           (lit "2026-01-01T00:00:00")).
  vm_compute. reflexivity.
Defined.

(** ** Stability of the final sort *)

Section Stability.

Context {A : Type} (lt : A -> A -> bool).

Hypothesis le_trans :
  forall x y z, lt y x = false -> lt z y = false -> lt z x = false.

Lemma insert_by_filter (k x : A) (l : list A) :
  let same y := negb (lt k y) && negb (lt y k) in
  filter same (insert_by lt x l)
  = if same x then x :: filter same l else filter same l.
Proof.
  intros same. induction l as [|y l IH]; [reflexivity|].
  cbn [insert_by]. destruct (lt y x) eqn:L.
  - cbn [filter]. rewrite IH. destruct (same x) eqn:Sx; [|reflexivity].
    destruct (same y) eqn:Sy; [|reflexivity]. exfalso.
    unfold same in Sx, Sy. apply andb_true_iff in Sx, Sy.
    destruct Sx as [Sx _]. destruct Sy as [_ Sy].
    apply negb_true_iff in Sx, Sy.
    rewrite (le_trans x k y Sx Sy) in L. discriminate.
  - cbn [filter]. destruct (same x); reflexivity.
Qed.

Lemma sort_by_filter (k : A) (l : list A) :
  let same y := negb (lt k y) && negb (lt y k) in
  filter same (sort_by lt l) = filter same l.
Proof.
  intros same. induction l as [|x l IH]; [reflexivity|].
  cbn [sort_by fold_right]. fold (sort_by lt l).
  subst same. rewrite insert_by_filter. cbn [filter]. cbv zeta in IH.
  rewrite IH. reflexivity.
Qed.

End Stability.

(** X12.  The final sort is stable: the records that have the same
    category rank and the same name as a given record come out in the
    order in which the crawl recorded them. *)
Theorem output_keeps_crawl_order (lower : str -> str) (W : World)
        (now : str) (payload : Payload) :
  main lower W now = Some (Some payload) ->
  exists seen recorded,
    crawl lower (S default_max_pages) W 1 ([], [])
    = Some (Finished (seen, recorded))
    /\ forall k, filter (same_key k) (clubs payload)
                 = filter (same_key k) recorded.
Proof.
  intros Hm. destruct (main_clubs _ _ _ _ Hm) as [[seen recorded] [Hc E]].
  exists seen, recorded. split; [exact Hc|]. intros k. rewrite E.
  apply (sort_by_filter key_ltb key_leb_trans k).
Qed.

Lemma output_keeps_crawl_order_witness :
  exists seen recorded,
    crawl ascii_lower (S default_max_pages) small_site 1 ([], [])
    = Some (Finished (seen, recorded)).
Proof.
  destruct (output_keeps_crawl_order ascii_lower small_site
              (lit "2026-01-01T00:00:00")
              {| generated_from := LIST;
                 generated_at := lit "2026-01-01T00:00:00Z";
                 clubs := [ {| c_name := lit "Chess Club";
                               c_category := lit "Other";
                               c_description := lit "We play chess.";
                               c_url := chess_url |} ] |})
    as [seen [recorded [E _]]].
  - vm_compute. reflexivity.
  - exists seen, recorded. exact E.
Defined.

(** ** A listing page that brings nothing new *)

Lemma visit_all_seen (lower : str -> str) (W : World) (urls : list str)
      (st : state) (u : str) :
  In u (fst st) \/ In u urls -> In u (fst (visit_all lower W urls st)).
Proof.
  unfold visit_all. revert st.
  induction urls as [|v urls IH]; intros st; cbn [fold_left].
  - intros [H|[]]. exact H.
  - intros H. apply IH. unfold visit. cbn [fst]. rewrite set_add_In.
    destruct H as [H|[->|H]]; auto.
Qed.

Lemma filter_unseen_nil (links : list str) :
  filter (fun u => negb (mem u [])) links = links.
Proof.
  induction links as [|u links IH]; [reflexivity|].
  cbn [filter]. rewrite IH. reflexivity.
Qed.

Lemma filter_unseen_all (seen links : list str) :
  (forall u, In u links -> In u seen) ->
  filter (fun u => negb (mem u seen)) links = [].
Proof.
  induction links as [|u links IH]; intros H; [reflexivity|].
  cbn [filter]. rewrite (proj2 (mem_In u seen)) by (apply H; now left).
  cbn [negb]. apply IH. intros v Hv. apply H. now right.
Qed.

Lemma crawl_two_pages (lower : str -> str) (W : World) (fuel : nat)
      (links links' : list str) :
  page_step W default_max_pages 1 = Yield links ->
  page_step W default_max_pages 2 = Yield links' ->
  (forall u, In u links' -> In u links) ->
  crawl lower (S (S fuel)) W 1 ([], [])
  = Some (Finished (visit_all lower W links ([], []))).
Proof.
  intros E1 E2 Hsub.
  cbn [crawl]. rewrite E1. cbn [fst]. rewrite filter_unseen_nil.
  replace (negb (nonempty links) && Nat.ltb 1 1) with false
    by (now rewrite andb_false_r).
  rewrite E2. rewrite filter_unseen_all.
  - reflexivity.
  - intros u Hu. apply visit_all_seen. right. now apply Hsub.
Qed.

(** X13.  When the second listing page only repeats links of the first
    one, [main] stops there: it visits the links of the first page, fetches
    no third page, and writes the sorted records of those visits. *)
Theorem repeated_page_stops_crawl (lower : str -> str) (W : World)
        (now : str) (links links' : list str) :
  page_step W default_max_pages 1 = Yield links ->
  page_step W default_max_pages 2 = Yield links' ->
  (forall u, In u links' -> In u links) ->
  main lower W now
  = Some (Some {| generated_from := LIST;
                  generated_at := now ++ lit "Z";
                  clubs := sort_by key_ltb
                             (snd (visit_all lower W links ([], []))) |}).
Proof.
  intros E1 E2 Hsub. unfold main.
  change (S default_max_pages) with (S (S 49)).
  now rewrite (crawl_two_pages lower W 49 links links' E1 E2 Hsub).
Qed.

Lemma repeated_page_stops_crawl_witness :
  main ascii_lower looping_site (lit "2026-01-01T00:00:00")
  = Some (Some {| generated_from := LIST;
                  generated_at := lit "2026-01-01T00:00:00" ++ lit "Z";
                  clubs := sort_by key_ltb
                             (snd (visit_all ascii_lower looping_site
                                     [chess_url] ([], []))) |}).
Proof.
  apply (repeated_page_stops_crawl ascii_lower looping_site
           (lit "2026-01-01T00:00:00") [chess_url] [chess_url]).
  - vm_compute. reflexivity.
  - vm_compute. reflexivity.
  - intros u H. exact H.
Defined.

(** ** The URLs of the listing pages *)

Lemma lit_inj (s t : string) : lit s = lit t -> s = t.
Proof.
  unfold lit. intros E.
  rewrite <- (string_of_list_ascii_of_string s),
          <- (string_of_list_ascii_of_string t).
  f_equal. revert E.
  generalize (list_ascii_of_string s) (list_ascii_of_string t).
  intros l; induction l as [|a l IH]; intros [|b m]; simpl; try discriminate;
    [reflexivity|].
  intros [= E1 E2]. f_equal; [|now apply IH].
  rewrite <- (ascii_N_embedding a), <- (ascii_N_embedding b).
  now rewrite E1.
Qed.

Lemma decimal_inj (p q : nat) : decimal p = decimal q -> p = q.
Proof.
  unfold decimal. intros E. apply lit_inj in E.
  assert (U : Nat.to_uint p = Nat.to_uint q).
  { assert (S : Some (Nat.to_uint p) = Some (Nat.to_uint q)).
    { rewrite <- !DecimalString.NilEmpty.usu. now rewrite E. }
    now injection S. }
  now apply DecimalNat.Unsigned.to_uint_inj.
Qed.

(** X14.  Two different page numbers are fetched at two different URLs,
    so the walker asks for no listing URL twice. *)
Theorem page_url_inj (p q : nat) : page_url p = page_url q -> p = q.
Proof.
  unfold page_url, LIST.
  destruct (Nat.eqb_spec p 1) as [->|Hp]; destruct (Nat.eqb_spec q 1) as [->|Hq];
    [reflexivity| | |]; intros E; apply app_inv_head in E.
  - discriminate E.
  - discriminate E.
  - apply app_inv_head in E. apply app_inv_tail in E. now apply decimal_inj.
Qed.

Lemma page_url_inj_witness : 7 = 7.
Proof. apply (page_url_inj 7 7). reflexivity. Defined.
